(** * FlatFlow epoch scheduler: [flatflow/scheduler/scheduler.h]

    A shallow embedding of [flatflow::scheduler::Scheduler<Index, Size, 1,
    false>] and of the collaborators it calls, followed by the properties of
    the scheduler that the specification states.

    - [Index] (the [mapped_type]) is an unsigned integer of [bits] bits; its
      values are modelled as [Z] and every [+], [-] and [*] of the source is
      written with its wrap-around.  The model is that of an [Index] type at
      least as wide as [int], where the operands are not promoted.
    - [assert] is modelled as enabled: a failed assertion aborts.
    - Logging and [omp_get_wtime] do not influence any value and are left
      out. *)

From Stdlib Require Import ZArith List Lia Bool Permutation.
Import ListNotations.
Local Open Scope Z_scope.

(** ** Outcomes of operations that may abort *)

Inductive Outcome (A : Type) : Type :=
| Done (a : A)
| Aborted.
Arguments Done {A} a.
Arguments Aborted {A}.

Definition obind {A B : Type} (o : Outcome A) (k : A -> Outcome B)
  : Outcome B :=
  match o with
  | Done a => k a
  | Aborted => Aborted
  end.

(** [assert(cond)] of <cassert>. *)
Definition assert (cond : bool) : Outcome unit :=
  if cond then Done tt else Aborted.

Declare Scope outcome_scope.
Delimit Scope outcome_scope with outcome.
Notation "'check' c ;; k" := (obind (assert c) (fun _ => k))
  (at level 61, c at next level, right associativity) : outcome_scope.

(** ** Unsigned machine arithmetic of the [Index] type *)

Section Unsigned.

Variable bits : N.

Definition modulus : Z := 2 ^ Z.of_N bits.

Definition wrap (z : Z) : Z := z mod modulus.

Definition representable (z : Z) : Prop := 0 <= z < modulus.

Definition uadd (a b : Z) : Z := wrap (a + b).
Definition usub (a b : Z) : Z := wrap (a - b).
Definition umul (a b : Z) : Z := wrap (a * b).
(** Unsigned [/] and [%] never leave the range of their operands. *)
Definition udiv (a b : Z) : Z := a / b.
Definition umod (a b : Z) : Z := a mod b.

End Unsigned.

(** ** Data model *)

(** The template parameters [Index] and [Size], both unsigned. *)
Abbreviation Index := Z (only parsing).
Abbreviation Size := Z (only parsing).

(** An item in transit: [(index, size)]. *)
Abbreviation Item := (Index * Size)%type.

(** [flatbuffers::Vector::size()], a value of the [Index] type. *)
Definition vector_size {A : Type} (v : list A) : Z := Z.of_nat (length v).

(** The indices [0, ..., n-1]. *)
Definition indices_upto (n : nat) : list Index := map Z.of_nat (seq 0 n).

(** ** [flatflow::data]: the dataset and the overflow-safe cast *)

Module data.

(** Modelled from the spec: [OverflowSafeCast] (flatflow/data/internal/types.h
    is not part of the sources).  §4.1: converts an unsigned size into the
    signed accumulator; a value above the signed maximum saturates to that
    maximum. *)
Definition OverflowSafeCast (accumulator_max : Z) (size : Size) : Z :=
  if accumulator_max <? size then accumulator_max else size.

(** Modelled from the spec: [flatflow::data::Dataset] (flatflow/data/dataset.h
    is not part of the sources).  §4.6: the dataset owns the [(index, size)]
    pairs and the sampling state of the epoch; [ds_pending] is what is left
    of the epoch's sampling order. *)
Record Dataset : Type := mkDataset {
  ds_sizes : list Size;
  ds_seed : Z;
  ds_pending : list Item
}.

Section Sampler.

(** §4.6 leaves the sampling order open: it "may be length-biased but is
    deterministic given (base_seed, epoch)". *)
Variable sampling_order : list Size -> Z -> Z -> list Item.

(** Modelled from the spec: the constructor [Dataset(sizes, seed)].  No
    epoch has begun: §4.6 requires [on_epoch_begin] before the [take]
    calls of an epoch. *)
Definition Dataset_new (sizes : list Size) (seed : Z) : Dataset :=
  {| ds_sizes := sizes; ds_seed := seed; ds_pending := [] |}.

(** Modelled from the spec: the dataset after it handed out [n] items
    (§4.6, "the next [n] items"). *)
Definition advance (n : nat) (d : Dataset) : Dataset :=
  {| ds_sizes := ds_sizes d; ds_seed := ds_seed d;
     ds_pending := skipn n (ds_pending d) |}.

(** Modelled from the spec: [Dataset::take].  §4.6: returns the next [n]
    items of the epoch's sampling order; §7: exhaustion is a fatal
    precondition violation. *)
Definition take (n : Z) (d : Dataset) : Outcome (list Item * Dataset) :=
  if (Z.to_nat n <=? length (ds_pending d))%nat then
    Done (firstn (Z.to_nat n) (ds_pending d), advance (Z.to_nat n) d)
  else Aborted.

(** Modelled from the spec: [Dataset::on_epoch_begin].  §4.6: resets the
    sampler state to the order of the given epoch. *)
Definition on_epoch_begin (epoch : Z) (d : Dataset) : Dataset :=
  {| ds_sizes := ds_sizes d; ds_seed := ds_seed d;
     ds_pending := sampling_order (ds_sizes d) (ds_seed d) epoch |}.

(** Modelled from the spec: the remaining lifecycle hooks of §4.6, which
    return nothing and do not touch the sampling order. *)
Definition on_epoch_end (epoch : Z) (d : Dataset) : Dataset := d.
Definition on_batch_begin (batch : Z) (d : Dataset) : Dataset := d.
Definition on_batch_end (batch : Z) (d : Dataset) : Dataset := d.
Definition on_train_begin (d : Dataset) : Dataset := d.
Definition on_train_end (d : Dataset) : Dataset := d.

End Sampler.

End data.

(** ** [flatflow::scheduler::internal::algorithm] *)

Module algorithm.

(** A stream cut into groups of [n]; the last group holds what is left.
    [length l] rounds suffice. *)
Fixpoint chunks {A : Type} (rounds n : nat) (l : list A) : list (list A) :=
  match l with
  | [] => []
  | _ :: _ =>
      match rounds with
      | O => [l]
      | S rounds' => firstn n l :: chunks rounds' n (skipn n l)
      end
  end.

(** *** Karmarkar–Karp multiway partitioning (§4.2) *)

(** A slot of a tuple: its accumulated weight and the indices it holds, in
    the order they accumulated. *)
Abbreviation Slot := (Z * list Index)%type.
Abbreviation Tuple := (list Slot).

Section Partition.

(** The largest value of the signed accumulator. *)
Variable accumulator_max : Z.

(** Modelled from the spec: §4.2, numeric semantics: sums saturate. *)
Definition saturating_add (a b : Z) : Z :=
  if accumulator_max <? a + b then accumulator_max else a + b.

(** Modelled from the spec: step 1 of §4.2, read with §3 and §4.4.  §4.2
    starts from one tuple per item, the weight in one slot and zeros
    elsewhere; the differencing of such tuples alone ends with micro-batches
    of unequal numbers of indices (1, 2, 2 and 3 in scenario C of §8), where
    §3 and §4.4 have the partitioner hand [K] micro-batches of [M] (or [L])
    indices each to reshape and §8 has every rank receive [per_rank]
    indices.  The model follows the latter: a starting tuple is [k]
    consecutive tuples of step 1 side by side, each item in a slot of its
    own, so that the slots of a tuple hold equally many indices at every
    step; a last tuple short of items keeps slots of weight zero.  Steps 2
    to 4 are those of §4.2. *)
Definition starting_tuple (k : nat) (op : Size -> Z) (row : list Item)
  : Tuple :=
  map (fun item => (op (snd item), [fst item])) row
  ++ repeat (0, []) (k - length row).

(** Modelled from the spec: step 2 of §4.2.  The spread of a tuple,
    [max slot - min slot]. *)
Definition spread (t : Tuple) : Z :=
  match map fst t with
  | [] => 0
  | w :: ws => fold_right Z.max w ws - fold_right Z.min w ws
  end.

(** Modelled from the spec: step 2 of §4.2.  The priority queue, highest
    spread first; a tuple is placed behind the tuples of equal spread
    inserted before it. *)
Fixpoint enqueue (t : Tuple) (queue : list Tuple) : list Tuple :=
  match queue with
  | [] => [t]
  | u :: rest =>
      if spread u <? spread t then t :: queue else u :: enqueue t rest
  end.

(** Modelled from the spec: step 3 of §4.2 sorts a tuple by slot weight.
    Stable insertion sort: a slot is placed behind the slots that come
    strictly [before] it. *)
Fixpoint insert_slot (before : Z -> Z -> bool) (s : Slot) (t : Tuple) : Tuple :=
  match t with
  | [] => [s]
  | x :: rest =>
      if before (fst x) (fst s) then x :: insert_slot before s rest
      else s :: t
  end.

(** Modelled from the spec: the sorted tuple of step 3. *)
Definition sort_slots (before : Z -> Z -> bool) (t : Tuple) : Tuple :=
  fold_right (insert_slot before) [] t.

(** Modelled from the spec: the two orders of step 3. *)
Definition largest_first (t : Tuple) : Tuple := sort_slots Z.gtb t.
Definition smallest_first (t : Tuple) : Tuple := sort_slots Z.ltb t.

(** Modelled from the spec: step 3 of §4.2.  The largest slot of one tuple
    is added to the smallest slot of the other, the second largest to the
    second smallest, and so on; the indices of both are kept. *)
Definition combine_tuples (a b : Tuple) : Tuple :=
  map (fun p => (saturating_add (fst (fst p)) (fst (snd p)),
                 snd (fst p) ++ snd (snd p)))
      (combine (largest_first a) (smallest_first b)).

(** Modelled from the spec: the loop of step 3.  Pop the two tuples of
    highest spread, combine them, push the result, until one tuple remains.
    Each round removes one tuple, so [length queue] rounds suffice. *)
Fixpoint differencing (rounds : nat) (queue : list Tuple) : list Tuple :=
  match rounds, queue with
  | S rounds', a :: b :: rest =>
      differencing rounds' (enqueue (combine_tuples a b) rest)
  | _, _ => queue
  end.

(** Modelled from the spec: the queue of step 2, filled in input order. *)
Definition initial_queue (k : nat) (op : Size -> Z) (items : list Item)
  : list Tuple :=
  fold_left (fun queue row => enqueue (starting_tuple k op row) queue)
            (chunks (length items) k items) [].

(** Modelled from the spec: [KarmarkarKarp] (partition.h is not part of
    the sources).  §4.2: [K == 0] is rejected; no items and [K > 0] gives
    [K] empty groups; otherwise step 4, the slots of the final tuple are
    the micro-batches, [length items / K] indices each when [K] divides the
    number of items. *)
Definition KarmarkarKarp (items : list Item) (num_micro_batches : Z)
    (op : Size -> Z) : Outcome (list (list Index)) :=
  if num_micro_batches =? 0 then Aborted
  else
    let k := Z.to_nat num_micro_batches in
    let queue := initial_queue k op items in
    match differencing (length queue) queue with
    | [] => Done (repeat [] k)
    | t :: _ => Done (map snd t)
    end.

End Partition.

(** *** Shuffle (§4.3) *)

(** Modelled from the spec: [l] with [x] written at position [i]; a position
    outside [l] leaves it as it is. *)
Fixpoint update {A : Type} (l : list A) (i : nat) (x : A) : list A :=
  match l, i with
  | [], _ => []
  | _ :: rest, O => x :: rest
  | y :: rest, S i' => y :: update rest i' x
  end.

(** Modelled from the spec: the exchange of positions [i] and [j], the step
    of Fisher–Yates. *)
Definition swap {A : Type} (i j : nat) (l : list A) : list A :=
  match nth_error l i, nth_error l j with
  | Some x, Some y => update (update l i y) j x
  | _, _ => l
  end.

Section Shuffle.

(** §4.3 does not pin the pseudo-random generator: [prng seed n] is the
    [n]-th number drawn from the generator seeded with [seed]. *)
Variable prng : Z -> nat -> nat.

(** Modelled from the spec: Fisher–Yates from the last position down,
    position [i] is exchanged with a position drawn from [0 .. i]. *)
Fixpoint fisher_yates {A : Type} (seed : Z) (drawn : nat) (i : nat)
    (l : list A) : list A :=
  match i with
  | O => l
  | S i' =>
      fisher_yates seed (S drawn) i'
        (swap i (Nat.modulo (prng seed drawn) (S i)) l)
  end.

(** Modelled from the spec: [shuffle] (shuffle.h is not part of the
    sources).  §4.3: a deterministic Fisher–Yates over the micro-batches,
    which stay intact. *)
Definition shuffle (micro_batches : list (list Index)) (seed : Z)
  : list (list Index) :=
  fisher_yates seed 0 (length micro_batches - 1) micro_batches.

End Shuffle.

(** *** Reshape (§4.4) *)

(** Modelled from the spec: block-wise assignment within a global batch
    (§4.4), micro-batch [i] of the group goes to rank [i / mu], at position
    [i mod mu]. *)
Definition rank_block (mu rank : nat) (group : list (list Index))
  : list (list Index) :=
  firstn mu (skipn (rank * mu) group).

(** Modelled from the spec: the micro-batches of a rank in one global
    batch.  A full global batch holds [P * mu] micro-batches, [mu] for each
    rank.  §4.4 does not say how a last global batch with fewer
    micro-batches is dealt; §4.5 and scenario E of §8 do (the two tail
    micro-batches of one index, where [mu = 4 / 2 / 1 = 2], go one to each
    rank): it is dealt in equal blocks as well, [ceil (c / P)] of its [c]
    micro-batches for each rank. *)
Definition block_size (ranks : nat) (group : list (list Index)) : nat :=
  (length group + ranks - 1) / ranks.

(** Modelled from the spec: [reshape] (reshape.h is not part of the
    sources), called with the micro-batches, [P] and [G].  §4.4: given
    micro-batches "each containing [M] (or [L] for tail) indices", and with
    [mu = G / P / M], the micro-batches are cut into global batches of
    [P * mu]; rank [r] receives, batch after batch, its block of each.  The
    micro-batch size is that of the micro-batches received.  With no
    micro-batch size to divide by, or a global batch below one micro-batch
    a rank, the micro-batches form one global batch. *)
Definition reshape (micro_batches : list (list Index)) (P G : Z)
  : list (list Index) :=
  let micro_batch_size := Z.of_nat (length (hd [] micro_batches)) in
  let mu := Z.to_nat (G / P / micro_batch_size) in
  let ranks := Z.to_nat P in
  let batches := chunks (length micro_batches) (ranks * mu) micro_batches in
  map (fun rank =>
         List.concat
           (map (fun group =>
                   List.concat
                     (rank_block (block_size ranks group) rank group))
                batches))
      (seq 0 ranks).

(** *** Concat (§4.5) *)

(** Modelled from the spec: [concat] (concat.h is not part of the sources).
    §4.5: [schedule[r] <- schedule[r] ++ tail[r]] for each rank [r]. *)
Fixpoint concat (head tail : list (list Index)) : list (list Index) :=
  match head, tail with
  | h :: head', t :: tail' => (h ++ t) :: concat head' tail'
  | _, _ => head
  end.

End algorithm.

(** ** [flatflow::scheduler::Scheduler] *)

(** The data members, in the order of their declaration. *)
Record Scheduler : Type := mkScheduler {
  data_parallel_size_ : Z;
  epoch_ : Z;
  global_batch_size_ : Z;
  last_micro_batch_size_ : Z;
  micro_batch_size_ : Z;
  num_micro_batches_ : Z;
  seed_ : Z;
  dataset_ : data.Dataset
}.

Definition set_dataset (s : Scheduler) (d : data.Dataset) : Scheduler :=
  {| data_parallel_size_ := data_parallel_size_ s;
     epoch_ := epoch_ s;
     global_batch_size_ := global_batch_size_ s;
     last_micro_batch_size_ := last_micro_batch_size_ s;
     micro_batch_size_ := micro_batch_size_ s;
     num_micro_batches_ := num_micro_batches_ s;
     seed_ := seed_ s;
     dataset_ := d |}.

Definition set_epoch (s : Scheduler) (epoch : Z) : Scheduler :=
  {| data_parallel_size_ := data_parallel_size_ s;
     epoch_ := epoch;
     global_batch_size_ := global_batch_size_ s;
     last_micro_batch_size_ := last_micro_batch_size_ s;
     micro_batch_size_ := micro_batch_size_ s;
     num_micro_batches_ := num_micro_batches_ s;
     seed_ := seed_ s;
     dataset_ := dataset_ s |}.

(** The calls a member function makes to its collaborators, in order. *)
Inductive Call : Type :=
| CallTake (n : Z)
| CallKarmarkarKarp (items : list Item) (num_micro_batches : Z)
| CallShuffle (micro_batches : list (list Index)) (seed : Z)
| CallReshape (micro_batches : list (list Index)) (P G : Z)
| CallConcat.

(** A member function: it runs on the object, may abort, leaves the object
    (changed or not) and the calls it made. *)
Definition Method (A : Type) : Type :=
  Scheduler -> Outcome A * Scheduler * list Call.

Definition mret {A : Type} (a : A) : Method A :=
  fun this => (Done a, this, []).

Definition mbind {A B : Type} (m : Method A) (k : A -> Method B) : Method B :=
  fun this =>
    match m this with
    | (Done a, this', calls) =>
        match k a this' with
        | (result, this'', calls') => (result, this'', calls ++ calls')
        end
    | (Aborted, this', calls) => (Aborted, this', calls)
    end.

Declare Scope method_scope.
Delimit Scope method_scope with method.
Notation "x <- m ;; k" := (mbind m (fun x => k))
  (at level 61, m at next level, right associativity) : method_scope.

(** A call that may abort, recorded whether it does or not. *)
Definition call {A : Type} (c : Call) (result : Outcome A) : Method A :=
  fun this => (result, this, [c]).

Section SchedulerModel.

Variable bits : N.
Variable accumulator_max : Z.
Variable prng : Z -> nat -> nat.
Variable sampling_order : list Size -> Z -> Z -> list Item.

(** [Scheduler::Scheduler].  [sizes] is a pointer: [None] is [nullptr].
    [epoch_] has no initializer; [indeterminate] is the value the member
    happens to hold after construction. *)
Definition Scheduler_ctor (sizes : option (list Size))
    (data_parallel_size global_batch_size micro_batch_size seed : Z)
    (indeterminate : Z) : Outcome Scheduler :=
  (check negb (data_parallel_size =? 0) ;;
   check negb (global_batch_size =? 0) ;;
   check (umod global_batch_size data_parallel_size =? 0) ;;
   check negb (micro_batch_size =? 0) ;;
   check (umod (udiv global_batch_size data_parallel_size) micro_batch_size
          =? 0) ;;
   match sizes with
   | None => Aborted
   | Some v =>
       check negb (vector_size v =? 0) ;;
       check (umod (vector_size v) data_parallel_size =? 0) ;;
       Done {| data_parallel_size_ := data_parallel_size;
               epoch_ := indeterminate;
               global_batch_size_ := global_batch_size;
               last_micro_batch_size_ :=
                 uadd bits
                   (umod (usub bits (udiv (vector_size v) data_parallel_size) 1)
                         micro_batch_size)
                   1;
               micro_batch_size_ := micro_batch_size;
               num_micro_batches_ :=
                 umul bits
                   (uadd bits
                      (udiv (usub bits
                               (udiv (vector_size v) data_parallel_size) 1)
                            micro_batch_size)
                      1)
                   data_parallel_size;
               seed_ := seed;
               dataset_ := data.Dataset_new v seed |}
   end)%outcome.

(** [dataset_.take(n)]: the dataset member advances. *)
Definition dataset_take (n : Z) : Method (list Item) :=
  fun this =>
    match data.take n (dataset_ this) with
    | Done (items, d) => (Done items, set_dataset this d, [CallTake n])
    | Aborted => (Aborted, this, [CallTake n])
    end.

Definition call_KarmarkarKarp (items : list Item) (num_micro_batches : Z)
  : Method (list (list Index)) :=
  call (CallKarmarkarKarp items num_micro_batches)
       (algorithm.KarmarkarKarp accumulator_max items num_micro_batches
          (data.OverflowSafeCast accumulator_max)).

Definition call_shuffle (micro_batches : list (list Index)) (seed : Z)
  : Method (list (list Index)) :=
  call (CallShuffle micro_batches seed)
       (Done (algorithm.shuffle prng micro_batches seed)).

Definition call_reshape (micro_batches : list (list Index)) (P G : Z)
  : Method (list (list Index)) :=
  call (CallReshape micro_batches P G)
       (Done (algorithm.reshape micro_batches P G)).

Definition call_concat (head tail : list (list Index))
  : Method (list (list Index)) :=
  call CallConcat (Done (algorithm.concat head tail)).

(** [Scheduler::Schedule]. *)
Definition Schedule : Method (list (list Index)) :=
  fun this =>
    (if micro_batch_size_ this =? last_micro_batch_size_ this then
       (items <- dataset_take
                   (umul bits (micro_batch_size_ this)
                      (num_micro_batches_ this)) ;;
        micro_batches <- call_KarmarkarKarp items (num_micro_batches_ this) ;;
        shuffled <- call_shuffle micro_batches
                      (uadd bits (epoch_ this) (seed_ this)) ;;
        indices <- call_reshape shuffled (data_parallel_size_ this)
                     (global_batch_size_ this) ;;
        mret indices)%method
     else
       (items <- dataset_take
                   (umul bits (micro_batch_size_ this)
                      (usub bits (num_micro_batches_ this)
                         (data_parallel_size_ this))) ;;
        micro_batches <- call_KarmarkarKarp items
                           (usub bits (num_micro_batches_ this)
                              (data_parallel_size_ this)) ;;
        last_items <- dataset_take
                        (umul bits (last_micro_batch_size_ this)
                           (data_parallel_size_ this)) ;;
        last_micro_batches <- call_KarmarkarKarp last_items
                                (data_parallel_size_ this) ;;
        shuffled <- call_shuffle micro_batches
                      (uadd bits (epoch_ this) (seed_ this)) ;;
        indices <- call_reshape shuffled (data_parallel_size_ this)
                     (global_batch_size_ this) ;;
        last_shuffled <- call_shuffle last_micro_batches
                           (uadd bits (epoch_ this) (seed_ this)) ;;
        last_indices <- call_reshape last_shuffled (data_parallel_size_ this)
                          (global_batch_size_ this) ;;
        call_concat indices last_indices)%method) this.

(** The callbacks.  Each forwards to the dataset; [on_epoch_begin] records
    the epoch first. *)
Definition on_batch_begin (batch : Z) : Method unit :=
  fun this =>
    (Done tt, set_dataset this (data.on_batch_begin batch (dataset_ this)), []).

Definition on_batch_end {Costs : Type} (batch rank : Z) (costs : option Costs)
  : Method unit :=
  fun this =>
    (Done tt, set_dataset this (data.on_batch_end batch (dataset_ this)), []).

Definition on_epoch_begin (epoch : Z) : Method unit :=
  fun this =>
    let this' := set_epoch this epoch in
    (Done tt,
     set_dataset this'
       (data.on_epoch_begin sampling_order epoch (dataset_ this')),
     []).

Definition on_epoch_end (epoch : Z) : Method unit :=
  fun this =>
    (Done tt, set_dataset this (data.on_epoch_end epoch (dataset_ this)), []).

Definition on_train_begin : Method unit :=
  fun this =>
    (Done tt, set_dataset this (data.on_train_begin (dataset_ this)), []).

Definition on_train_end : Method unit :=
  fun this =>
    (Done tt, set_dataset this (data.on_train_end (dataset_ this)), []).

End SchedulerModel.

(** ** Driving a scheduler through its public operations (§6) *)

Inductive Request : Type :=
| ReqSchedule
| ReqBatchBegin (batch : Z)
| ReqBatchEnd (batch rank : Z)
| ReqEpochBegin (epoch : Z)
| ReqEpochEnd (epoch : Z)
| ReqTrainBegin
| ReqTrainEnd.

Definition is_epoch_begin (r : Request) : bool :=
  match r with
  | ReqEpochBegin _ => true
  | _ => false
  end.

Definition is_schedule (r : Request) : bool :=
  match r with
  | ReqSchedule => true
  | _ => false
  end.


Section Driver.

Variable bits : N.
Variable accumulator_max : Z.
Variable prng : Z -> nat -> nat.
Variable sampling_order : list Size -> Z -> Z -> list Item.

(** One public operation; [Schedule()] hands back its schedule. *)
Definition perform (r : Request) : Method (option (list (list Index))) :=
  match r with
  | ReqSchedule =>
      (indices <- Schedule bits accumulator_max prng ;;
       mret (Some indices))%method
  | ReqBatchBegin batch => (_ <- on_batch_begin batch ;; mret None)%method
  | ReqBatchEnd batch rank =>
      (_ <- on_batch_end batch rank (@None (list Z)) ;; mret None)%method
  | ReqEpochBegin epoch =>
      (_ <- on_epoch_begin sampling_order epoch ;; mret None)%method
  | ReqEpochEnd epoch => (_ <- on_epoch_end epoch ;; mret None)%method
  | ReqTrainBegin => (_ <- on_train_begin ;; mret None)%method
  | ReqTrainEnd => (_ <- on_train_end ;; mret None)%method
  end.

(** The object after one operation. *)
Definition after (r : Request) (this : Scheduler) : Scheduler :=
  snd (fst (perform r this)).

Definition after_all (requests : list Request) (this : Scheduler) : Scheduler :=
  fold_left (fun s r => after r s) requests this.


End Driver.

(** ** The configuration and what the specification derives from it (§3) *)

(** The samples of one rank, [N / P]. *)
Definition per_rank (sizes : list Size) (P : Z) : Z := vector_size sizes / P.

(** The preconditions of §3, on a non-null [sizes]. *)
Definition Preconditions (sizes : list Size) (P G M : Z) : Prop :=
  P > 0 /\ G > 0 /\ M > 0 /\ G mod P = 0 /\ (G / P) mod M = 0 /\
  vector_size sizes > 0 /\ vector_size sizes mod P = 0.

(** The arguments are values of the [Index] type. *)
Definition Representable (bits : N) (sizes : list Size) (P G M seed : Z)
  : Prop :=
  representable bits P /\ representable bits G /\ representable bits M /\
  representable bits seed /\ representable bits (vector_size sizes).

(** The specification's [ceil(x / y)], spelled as in the comment of the
    constructor: [x % y == 0 ? x / y : x / y + 1]. *)
Definition ceil_div (x y : Z) : Z :=
  if x mod y =? 0 then x / y else x / y + 1.

(** The specification's [K = ceil(per_rank / M) * P]. *)
Definition spec_num_micro_batches (sizes : list Size) (P M : Z) : Z :=
  ceil_div (per_rank sizes P) M * P.

(** The specification's [L = ((per_rank - 1) mod M) + 1]. *)
Definition spec_last_micro_batch_size (sizes : list Size) (P M : Z) : Z :=
  (per_rank sizes P - 1) mod M + 1.

(** A scheduler that carries the configuration and the constants derived from
    it: what the constructor establishes and every operation keeps. *)
Definition Configured (sizes : list Size) (P G M seed : Z) (this : Scheduler)
  : Prop :=
  data_parallel_size_ this = P /\
  global_batch_size_ this = G /\
  micro_batch_size_ this = M /\
  seed_ this = seed /\
  num_micro_batches_ this = spec_num_micro_batches sizes P M /\
  last_micro_batch_size_ this = spec_last_micro_batch_size sizes P M.

(** The dataset is at the beginning of an epoch: the items it will hand out
    carry each index of [0 .. N-1] exactly once. *)
Definition EpochOpen (sizes : list Size) (this : Scheduler) : Prop :=
  Permutation (map fst (data.ds_pending (dataset_ this)))
              (indices_upto (length sizes)).

(** The seed [Schedule()] passes to its shuffles, [epoch_ + seed_]. *)
Definition shuffle_seed (bits : N) (this : Scheduler) : Z :=
  uadd bits (epoch_ this) (seed_ this).

(** The sizes [Schedule()] passes to [take], branch by branch. *)
Definition take_requests (bits : N) (this : Scheduler) : list Z :=
  if micro_batch_size_ this =? last_micro_batch_size_ this then
    [umul bits (micro_batch_size_ this) (num_micro_batches_ this)]
  else
    [umul bits (micro_batch_size_ this)
       (usub bits (num_micro_batches_ this) (data_parallel_size_ this));
     umul bits (last_micro_batch_size_ this) (data_parallel_size_ this)].

(** Projections of the calls a run made. *)
Definition taken (calls : list Call) : list Z :=
  flat_map (fun c => match c with CallTake n => [n] | _ => [] end) calls.

Definition partitioned (calls : list Call) : list (list Item * Z) :=
  flat_map (fun c => match c with
                     | CallKarmarkarKarp items k => [(items, k)]
                     | _ => []
                     end) calls.

Definition shuffle_seeds (calls : list Call) : list Z :=
  flat_map (fun c => match c with CallShuffle _ seed => [seed] | _ => [] end)
           calls.

Definition sum_Z (l : list Z) : Z := fold_right Z.add 0 l.

(** The indices a tuple, and a queue of tuples, hold. *)
Definition tuple_indices (t : algorithm.Tuple) : list Index :=
  List.concat (map snd t).

Definition queue_indices (queue : list algorithm.Tuple) : list Index :=
  List.concat (map tuple_indices queue).

(** Every slot of the tuple holds [n] indices. *)
Definition slots_hold (n : nat) (t : algorithm.Tuple) : Prop :=
  Forall (fun s => length (snd s) = n) t.

(** One of the preconditions of §3 is violated; [sizes] may be null. *)
Definition Violated (sizes : option (list Size)) (P G M : Z) : Prop :=
  P = 0 \/ G = 0 \/ M = 0 \/ G mod P <> 0 \/ (G / P) mod M <> 0 \/
  sizes = None \/
  (exists v, sizes = Some v /\ (vector_size v = 0 \/ vector_size v mod P <> 0)).

(** ** Concrete collaborators, for running the model *)

(** The sampling order that hands the items out in index order. *)
Definition index_order (sizes : list Size) (seed epoch : Z) : list Item :=
  combine (indices_upto (length sizes)) sizes.

(** A generator whose [n]-th draw is [seed + n]. *)
Definition counting_prng (seed : Z) (n : nat) : nat := (Z.to_nat seed + n)%nat.

(** A 64-bit [Index] and a 64-bit signed accumulator. *)
Definition bits64 : N := 64%N.
Definition int64_max : Z := 2 ^ 63 - 1.

(** Construction followed by [on_epoch_begin(epoch)], on concrete
    collaborators; [None] when construction aborts. *)
Definition started (sizes : list Size) (P G M seed epoch : Z)
  : option Scheduler :=
  match Scheduler_ctor bits64 (Some sizes) P G M seed 0 with
  | Done this => Some (after bits64 int64_max counting_prng index_order
                         (ReqEpochBegin epoch) this)
  | Aborted => None
  end.

(** ** The constructor with undefined behaviour made explicit *)

(** What evaluating C++ can come to: a value, a failed [assert], or
    undefined behaviour (a division by zero, a null pointer dereferenced). *)
Inductive Checked (A : Type) : Type :=
| Returned (a : A)
| AssertionFailed
| Undefined.
Arguments Returned {A} a.
Arguments AssertionFailed {A}.
Arguments Undefined {A}.

Definition cbind {A B : Type} (c : Checked A) (k : A -> Checked B)
  : Checked B :=
  match c with
  | Returned a => k a
  | AssertionFailed => AssertionFailed
  | Undefined => Undefined
  end.

Declare Scope checked_scope.
Delimit Scope checked_scope with checked.
Notation "x <- c ;; k" := (cbind c (fun x => k))
  (at level 61, c at next level, right associativity) : checked_scope.

(** Unsigned [a / b] and [a % b]: undefined when [b] is zero. *)
Definition checked_div (a b : Z) : Checked Z :=
  if b =? 0 then Undefined else Returned (udiv a b).

Definition checked_mod (a b : Z) : Checked Z :=
  if b =? 0 then Undefined else Returned (umod a b).

(** [sizes->size()]: undefined on [nullptr]. *)
Definition checked_size (sizes : option (list Size)) : Checked Z :=
  match sizes with
  | Some v => Returned (vector_size v)
  | None => Undefined
  end.

(** [assert(cond)]: with [NDEBUG] defined the macro expands to nothing and
    the condition is not evaluated. *)
Definition checked_assert (ndebug : bool) (cond : Checked bool)
  : Checked unit :=
  if ndebug then Returned tt
  else cbind cond (fun b => if b then Returned tt else AssertionFailed).

(** [Scheduler::Scheduler], statement by statement, with every division,
    remainder and dereference checked. *)
Definition Scheduler_ctor_checked (bits : N) (ndebug : bool)
    (sizes : option (list Size))
    (data_parallel_size global_batch_size micro_batch_size seed : Z)
    (indeterminate : Z) : Checked Scheduler :=
  (_ <- checked_assert ndebug (Returned (negb (data_parallel_size =? 0))) ;;
   _ <- checked_assert ndebug (Returned (negb (global_batch_size =? 0))) ;;
   _ <- checked_assert ndebug
          (r <- checked_mod global_batch_size data_parallel_size ;;
           Returned (r =? 0)) ;;
   _ <- checked_assert ndebug (Returned (negb (micro_batch_size =? 0))) ;;
   _ <- checked_assert ndebug
          (q <- checked_div global_batch_size data_parallel_size ;;
           r <- checked_mod q micro_batch_size ;;
           Returned (r =? 0)) ;;
   _ <- checked_assert ndebug
          (Returned (match sizes with Some _ => true | None => false end)) ;;
   _ <- checked_assert ndebug
          (n <- checked_size sizes ;; Returned (negb (n =? 0))) ;;
   _ <- checked_assert ndebug
          (n <- checked_size sizes ;;
           r <- checked_mod n data_parallel_size ;;
           Returned (r =? 0)) ;;
   n <- checked_size sizes ;;
   q <- checked_div n data_parallel_size ;;
   c <- checked_div (usub bits q 1) micro_batch_size ;;
   n' <- checked_size sizes ;;
   q' <- checked_div n' data_parallel_size ;;
   r <- checked_mod (usub bits q' 1) micro_batch_size ;;
   match sizes with
   | Some v =>
       Returned {| data_parallel_size_ := data_parallel_size;
                   epoch_ := indeterminate;
                   global_batch_size_ := global_batch_size;
                   last_micro_batch_size_ := uadd bits r 1;
                   micro_batch_size_ := micro_batch_size;
                   num_micro_batches_ :=
                     umul bits (uadd bits c 1) data_parallel_size;
                   seed_ := seed;
                   dataset_ := data.Dataset_new v seed |}
   | None => Undefined
   end)%checked.

(** ** More projections of runs *)

(** The micro-batches a run handed to [shuffle]. *)
Definition shuffle_inputs (calls : list Call) : list (list (list Index)) :=
  flat_map (fun c => match c with CallShuffle mbs _ => [mbs] | _ => [] end)
           calls.

(** The epoch a sequence of operations leaves in [epoch_]: the argument of
    its last [on_epoch_begin], or the value before. *)
Definition last_epoch_begin (requests : list Request) (before : Z) : Z :=
  fold_left (fun epoch r => match r with
                            | ReqEpochBegin e => e
                            | _ => epoch
                            end) requests before.

(** * Properties *)

(** ** Machine arithmetic *)

Lemma modulus_pos (bits : N) : 0 < modulus bits.
Proof. unfold modulus. apply Z.pow_pos_nonneg; lia. Qed.

Lemma wrap_small (bits : N) (z : Z) : representable bits z -> wrap bits z = z.
Proof. intros H. unfold wrap. apply Z.mod_small. exact H. Qed.

Lemma representable_le (bits : N) (a b : Z) :
  representable bits b -> 0 <= a <= b -> representable bits a.
Proof. unfold representable. lia. Qed.

(** ** The branch-free expressions of the constructor *)

(** [(x - 1) / y + 1] is [x % y == 0 ? x / y : x / y + 1]. *)
Lemma branchless_ceil (x y : Z) :
  1 <= x -> 1 <= y -> (x - 1) / y + 1 = ceil_div x y.
Proof.
  intros Hx Hy. unfold ceil_div.
  pose proof (Z.div_mod x y ltac:(lia)) as E.
  pose proof (Z.mod_pos_bound x y ltac:(lia)) as B.
  destruct (Z.eqb_spec (x mod y) 0) as [H0 | H0].
  - assert ((x - 1) / y = x / y - 1); [| lia].
    symmetry. apply Z.div_unique with (r := y - 1); [lia | nia].
  - assert ((x - 1) / y = x / y); [| lia].
    symmetry. apply Z.div_unique with (r := x mod y - 1); [lia | nia].
Qed.

(** [(x - 1) % y + 1] is [x % y == 0 ? y : x % y]. *)
Lemma branchless_last (x y : Z) :
  1 <= x -> 1 <= y ->
  (x - 1) mod y + 1 = if x mod y =? 0 then y else x mod y.
Proof.
  intros Hx Hy.
  pose proof (Z.div_mod x y ltac:(lia)) as E.
  pose proof (Z.mod_pos_bound x y ltac:(lia)) as B.
  destruct (Z.eqb_spec (x mod y) 0) as [H0 | H0].
  - assert ((x - 1) mod y = y - 1); [| lia].
    symmetry. apply Z.mod_unique with (q := x / y - 1); [lia | nia].
  - assert ((x - 1) mod y = x mod y - 1); [| lia].
    symmetry. apply Z.mod_unique with (q := x / y); [lia | nia].
Qed.

(** [ceil_div x y] is the least [c] with [x <= c * y]. *)
Lemma ceil_div_least (x y : Z) :
  1 <= y -> (ceil_div x y - 1) * y < x <= ceil_div x y * y.
Proof.
  intros Hy. unfold ceil_div.
  pose proof (Z.div_mod x y ltac:(lia)) as E.
  pose proof (Z.mod_pos_bound x y ltac:(lia)) as B.
  destruct (Z.eqb_spec (x mod y) 0); nia.
Qed.

Lemma per_rank_bounds (sizes : list Size) (P G M : Z) :
  Preconditions sizes P G M ->
  1 <= per_rank sizes P <= vector_size sizes /\
  per_rank sizes P * P = vector_size sizes.
Proof.
  unfold Preconditions, per_rank.
  intros (HP & _ & _ & _ & _ & HN & HNP).
  pose proof (Z.div_mod (vector_size sizes) P ltac:(lia)) as E.
  rewrite HNP in E. nia.
Qed.

Lemma ceil_div_bounds (x y : Z) :
  1 <= x -> 1 <= y -> 1 <= ceil_div x y <= x.
Proof.
  intros Hx Hy. pose proof (ceil_div_least x y Hy). nia.
Qed.

(** The constants the constructor stores, under the preconditions: nothing
    wraps, and they are the constants of §3. *)
Lemma derived_constants (bits : N) (sizes : list Size) (P G M seed : Z) :
  Preconditions sizes P G M ->
  Representable bits sizes P G M seed ->
  umul bits
    (uadd bits (udiv (usub bits (udiv (vector_size sizes) P) 1) M) 1) P
  = spec_num_micro_batches sizes P M /\
  uadd bits (umod (usub bits (udiv (vector_size sizes) P) 1) M) 1
  = spec_last_micro_batch_size sizes P M.
Proof.
  intros Hpre Hrep.
  destruct (per_rank_bounds _ _ _ _ Hpre) as [Hq HqP].
  destruct Hpre as (HP & HG & HM & HGP & HGM & HN & HNP).
  destruct Hrep as (RP & RG & RM & Rseed & RN).
  unfold spec_num_micro_batches, spec_last_micro_batch_size.
  unfold per_rank in *. unfold udiv, umod, uadd, usub, umul.
  set (q := vector_size sizes / P) in *.
  pose proof (ceil_div_bounds q M ltac:(lia) ltac:(lia)) as Hc.
  pose proof (branchless_ceil q M ltac:(lia) ltac:(lia)) as Ec.
  pose proof (Z.mod_pos_bound (q - 1) M ltac:(lia)) as Bm.
  unfold representable in *.
  rewrite (wrap_small bits (q - 1)) by (unfold representable; lia).
  split.
  - rewrite (wrap_small bits ((q - 1) / M + 1)) by (unfold representable; lia).
    rewrite Ec. apply wrap_small. unfold representable. nia.
  - apply wrap_small. unfold representable. lia.
Qed.

(** Construction succeeds under the preconditions, and what it builds. *)
Lemma Scheduler_ctor_Done (bits : N) (sizes : list Size) (P G M seed : Z)
    (indeterminate : Z) :
  Preconditions sizes P G M ->
  Representable bits sizes P G M seed ->
  exists this,
    Scheduler_ctor bits (Some sizes) P G M seed indeterminate = Done this /\
    Configured sizes P G M seed this /\
    epoch_ this = indeterminate /\
    dataset_ this = data.Dataset_new sizes seed.
Proof.
  intros Hpre Hrep.
  destruct (derived_constants bits sizes P G M seed Hpre Hrep) as [EK EL].
  destruct Hpre as (HP & HG & HM & HGP & HGM & HN & HNP).
  unfold Scheduler_ctor, umod, udiv in *.
  rewrite EK, EL.
  replace (P =? 0) with false by (symmetry; apply Z.eqb_neq; lia).
  replace (G =? 0) with false by (symmetry; apply Z.eqb_neq; lia).
  replace (M =? 0) with false by (symmetry; apply Z.eqb_neq; lia).
  replace (vector_size sizes =? 0) with false
    by (symmetry; apply Z.eqb_neq; lia).
  rewrite HGP, HGM, HNP. simpl.
  eexists. split; [reflexivity |].
  unfold Configured. simpl. repeat split; reflexivity.
Qed.

(** ** The constructor *)

(** C5.  Under the preconditions of §3 the constructor stores
    [num_micro_batches_ = ceil(per_rank / M) * P], where the ceiling is the
    least [c] with [per_rank <= c * M], and
    [last_micro_batch_size_ = ((per_rank - 1) mod M) + 1], which lies in
    [1 .. M]. *)
Theorem constructor_constants_match_spec (bits : N) (sizes : list Size)
    (P G M seed indeterminate : Z) :
  Preconditions sizes P G M ->
  Representable bits sizes P G M seed ->
  exists this,
    Scheduler_ctor bits (Some sizes) P G M seed indeterminate = Done this /\
    num_micro_batches_ this = ceil_div (per_rank sizes P) M * P /\
    (ceil_div (per_rank sizes P) M - 1) * M < per_rank sizes P
      <= ceil_div (per_rank sizes P) M * M /\
    last_micro_batch_size_ this = (per_rank sizes P - 1) mod M + 1 /\
    1 <= last_micro_batch_size_ this <= M.
Proof.
  intros Hpre Hrep.
  destruct (Scheduler_ctor_Done bits sizes P G M seed indeterminate Hpre Hrep)
    as (this & E & (_ & _ & _ & _ & EK & EL) & _).
  exists this. split; [exact E |].
  destruct Hpre as (HP & HG & HM & _).
  split; [exact EK |].
  split; [apply ceil_div_least; lia |].
  split; [exact EL |].
  rewrite EL. unfold spec_last_micro_batch_size.
  pose proof (Z.mod_pos_bound (per_rank sizes P - 1) M ltac:(lia)). lia.
Qed.

Lemma constructor_constants_match_spec_witness :
  exists this,
    Scheduler_ctor bits64 (Some [1; 1; 1; 1; 1; 1; 1; 1; 1; 1]) 2 4 2 0 7
      = Done this /\
    num_micro_batches_ this = 6 /\
    last_micro_batch_size_ this = 1.
Proof.
  destruct (constructor_constants_match_spec bits64
              [1; 1; 1; 1; 1; 1; 1; 1; 1; 1] 2 4 2 0 7)
    as (this & E & EK & _ & EL & _).
  - unfold Preconditions. vm_compute. repeat split; discriminate.
  - unfold Representable, representable. vm_compute.
    repeat split; discriminate.
  - exists this. split; [exact E |]. split; [exact EK | exact EL].
Defined.

(** C7.  With assertions enabled, construction aborts exactly when one of
    the preconditions of §3 is violated; otherwise it yields a scheduler. *)
Theorem constructor_aborts_iff_violated (bits : N)
    (sizes : option (list Size)) (P G M seed indeterminate : Z) :
  (Scheduler_ctor bits sizes P G M seed indeterminate = Aborted
   <-> Violated sizes P G M) /\
  (~ Violated sizes P G M ->
   exists this, Scheduler_ctor bits sizes P G M seed indeterminate = Done this).
Proof.
  assert (Hcases :
    (Scheduler_ctor bits sizes P G M seed indeterminate = Aborted /\
     Violated sizes P G M) \/
    ((exists this,
        Scheduler_ctor bits sizes P G M seed indeterminate = Done this) /\
     ~ Violated sizes P G M)).
  { unfold Scheduler_ctor, Violated, umod, udiv.
    destruct (Z.eqb_spec P 0) as [HP | HP]; [left; simpl; tauto |].
    destruct (Z.eqb_spec G 0) as [HG | HG]; [left; simpl; tauto |].
    destruct (Z.eqb_spec (G mod P) 0) as [HGP | HGP]; [| left; simpl; tauto].
    destruct (Z.eqb_spec M 0) as [HM | HM]; [left; simpl; tauto |].
    destruct (Z.eqb_spec (G / P mod M) 0) as [HGM | HGM];
      [| left; simpl; tauto].
    destruct sizes as [v |]; [| left; simpl; tauto].
    destruct (Z.eqb_spec (vector_size v) 0) as [HN | HN].
    { left. simpl. split; [reflexivity |].
      do 6 right. exists v. tauto. }
    destruct (Z.eqb_spec (vector_size v mod P) 0) as [HNP | HNP].
    - right. simpl. split; [eexists; reflexivity |].
      intros [H | [H | [H | [H | [H | [H | (v' & Ev & H)]]]]]];
        try tauto; try discriminate.
      injection Ev as <-. tauto.
    - left. simpl. split; [reflexivity |].
      do 6 right. exists v. tauto. }
  split.
  - split.
    + intros E. destruct Hcases as [[_ H] | [[this E'] _]]; [exact H |].
      rewrite E in E'. discriminate.
    + intros V. destruct Hcases as [[E _] | [_ H]]; [exact E | contradiction].
  - intros NV. destruct Hcases as [[_ V] | [H _]]; [contradiction | exact H].
Qed.

Lemma constructor_aborts_iff_violated_witness :
  Scheduler_ctor bits64 (Some [1; 1]) 0 4 2 0 7 = Aborted /\
  exists this, Scheduler_ctor bits64 (Some [1; 1; 1; 1]) 2 4 2 0 7 = Done this.
Proof.
  split.
  - apply (proj1 (constructor_aborts_iff_violated bits64 (Some [1; 1])
                    0 4 2 0 7)).
    left. reflexivity.
  - apply (proj2 (constructor_aborts_iff_violated bits64 (Some [1; 1; 1; 1])
                    2 4 2 0 7)).
    intros [H | [H | [H | [H | [H | [H | (v & Ev & [H | H])]]]]]];
      try discriminate; try (apply H; reflexivity);
      injection Ev as <-; try discriminate; apply H; reflexivity.
Defined.

(** ** Lists *)

Lemma Permutation_concat {A : Type} (l l' : list (list A)) :
  Permutation l l' -> Permutation (List.concat l) (List.concat l').
Proof.
  intros H. induction H; simpl.
  - constructor.
  - apply Permutation_app_head. assumption.
  - rewrite !app_assoc. apply Permutation_app_tail, Permutation_app_comm.
  - etransitivity; eassumption.
Qed.

Lemma length_concat_repeat_nil {A : Type} (n : nat) :
  List.concat (repeat (@nil A) n) = [].
Proof. induction n; simpl; auto. Qed.

Lemma chunks_concat {A : Type} (rounds n : nat) (l : list A) :
  List.concat (algorithm.chunks rounds n l) = l.
Proof.
  revert l. induction rounds as [| rounds IH]; intros [| a l]; simpl;
    try reflexivity.
  - rewrite app_nil_r. reflexivity.
  - fold (firstn n (a :: l)). fold (skipn n (a :: l)).
    rewrite IH. apply firstn_skipn.
Qed.

Lemma chunks_bounded {A : Type} (rounds n : nat) (l : list A) :
  (1 <= n)%nat -> (length l <= rounds)%nat ->
  Forall (fun group => (length group <= n)%nat) (algorithm.chunks rounds n l).
Proof.
  intros Hn. revert l.
  induction rounds as [| rounds IH]; intros [| a l] Hlen;
    try (simpl in Hlen; lia); try constructor.
  - rewrite length_firstn. lia.
  - apply IH. rewrite length_skipn. simpl length in *. lia.
Qed.

Lemma Forall_firstn_skipn {A : Type} (Q : A -> Prop) (n : nat) (l : list A) :
  Forall Q l -> Forall Q (firstn n l) /\ Forall Q (skipn n l).
Proof.
  intros H. rewrite <- (firstn_skipn n l) in H.
  apply Forall_app in H. exact H.
Qed.

Lemma Forall_combine {A B : Type} (Q : A -> Prop) (R : B -> Prop)
    (a : list A) (b : list B) :
  Forall Q a -> Forall R b ->
  Forall (fun p => Q (fst p) /\ R (snd p)) (combine a b).
Proof.
  intros Ha. revert b. induction Ha as [| x a Hx _ IH]; intros b Hb; simpl.
  - constructor.
  - destruct Hb as [| y b Hy Hb]; constructor.
    + split; assumption.
    + apply IH, Hb.
Qed.

Lemma length_concat_uniform {A : Type} (k : nat) (l : list (list A)) :
  Forall (fun x => length x = k) l ->
  length (List.concat l) = (length l * k)%nat.
Proof.
  induction 1 as [| x l Hx _ IH]; simpl.
  - reflexivity.
  - rewrite length_app, IH, Hx. reflexivity.
Qed.

(** A stream of [c * n] elements is cut into full groups of [n]. *)
Lemma chunks_full {A : Type} (Q : A -> Prop) (n c rounds : nat) (l : list A) :
  (1 <= n)%nat -> length l = (c * n)%nat -> (length l <= rounds)%nat ->
  Forall Q l ->
  Forall (fun group => length group = n /\ Forall Q group)
         (algorithm.chunks rounds n l).
Proof.
  intros Hn. revert c l.
  induction rounds as [| rounds IH]; intros c [| a l] Hc Hlen HQ;
    try (simpl in Hlen; lia); try constructor.
  - destruct c as [| c]; [simpl in Hc; lia |].
    split.
    + rewrite length_firstn. lia.
    + apply (Forall_firstn_skipn Q n (a :: l) HQ).
  - destruct c as [| c]; [simpl in Hc; lia |].
    apply (IH c).
    + rewrite length_skipn. lia.
    + rewrite length_skipn. simpl length in *. lia.
    + apply (Forall_firstn_skipn Q n (a :: l) HQ).
Qed.

(** When [d] divides the size of the groups and the length of the stream,
    it divides the length of every group, the last one too. *)
Lemma chunks_divide {A : Type} (Q : A -> Prop) (d n rounds : nat)
    (l : list A) :
  Nat.divide d n -> Nat.divide d (length l) -> Forall Q l ->
  Forall (fun group => Nat.divide d (length group) /\ Forall Q group)
         (algorithm.chunks rounds n l).
Proof.
  intros Hn. revert l.
  induction rounds as [| rounds IH]; intros [| a l] Hl HQ.
  - constructor.
  - constructor; [split; assumption | constructor].
  - constructor.
  - change (algorithm.chunks (S rounds) n (a :: l))
      with (firstn n (a :: l)
            :: algorithm.chunks rounds n (skipn n (a :: l))).
    constructor.
    + split.
      * rewrite length_firstn.
        destruct (Nat.min_spec n (length (a :: l))) as [[_ ->] | [_ ->]];
          assumption.
      * apply (Forall_firstn_skipn Q n (a :: l) HQ).
    + apply IH.
      * rewrite length_skipn. apply Nat.divide_sub_r; assumption.
      * apply (Forall_firstn_skipn Q n (a :: l) HQ).
Qed.

(** ** The partitioner keeps every index, once *)

Section PartitionFacts.

Variable accumulator_max : Z.


Lemma enqueue_Permutation (t : algorithm.Tuple) (queue : list algorithm.Tuple) :
  Permutation (algorithm.enqueue t queue) (t :: queue).
Proof.
  induction queue as [| u rest IH]; simpl.
  - reflexivity.
  - destruct (algorithm.spread u <? algorithm.spread t).
    + reflexivity.
    + rewrite IH. apply perm_swap.
Qed.

Lemma enqueue_length (t : algorithm.Tuple) (queue : list algorithm.Tuple) :
  length (algorithm.enqueue t queue) = S (length queue).
Proof. apply (Permutation_length (enqueue_Permutation t queue)). Qed.

Lemma insert_slot_Permutation before (s : algorithm.Slot)
    (t : algorithm.Tuple) :
  Permutation (algorithm.insert_slot before s t) (s :: t).
Proof.
  induction t as [| x rest IH]; simpl.
  - reflexivity.
  - destruct (before (fst x) (fst s)).
    + rewrite IH. apply perm_swap.
    + reflexivity.
Qed.

Lemma sort_slots_Permutation before (t : algorithm.Tuple) :
  Permutation (algorithm.sort_slots before t) t.
Proof.
  induction t as [| s rest IH]; simpl.
  - reflexivity.
  - rewrite insert_slot_Permutation. constructor. exact IH.
Qed.

Lemma tuple_indices_Permutation (a b : algorithm.Tuple) :
  Permutation a b -> Permutation (tuple_indices a) (tuple_indices b).
Proof.
  intros H. unfold tuple_indices.
  apply Permutation_concat, Permutation_map, H.
Qed.

(** Adding two tuples slot by slot keeps the indices of both. *)
Lemma zip_indices (f : Z -> Z -> Z) (a b : algorithm.Tuple) :
  length a = length b ->
  Permutation
    (tuple_indices
       (map (fun p => (f (fst (fst p)) (fst (snd p)),
                       snd (fst p) ++ snd (snd p)))
            (combine a b)))
    (tuple_indices a ++ tuple_indices b).
Proof.
  revert b. induction a as [| x a IH]; intros [| y b] Hlen;
    simpl in Hlen; try discriminate.
  - reflexivity.
  - unfold tuple_indices in *. simpl.
    rewrite (IH b) by lia.
    rewrite <- !app_assoc. apply Permutation_app_head.
    rewrite !app_assoc. apply Permutation_app_tail.
    apply Permutation_app_comm.
Qed.

Lemma combine_tuples_indices (a b : algorithm.Tuple) :
  length a = length b ->
  Permutation (tuple_indices (algorithm.combine_tuples accumulator_max a b))
              (tuple_indices a ++ tuple_indices b).
Proof.
  intros Hlen. unfold algorithm.combine_tuples.
  rewrite zip_indices.
  - apply Permutation_app; apply tuple_indices_Permutation;
      apply sort_slots_Permutation.
  - unfold algorithm.largest_first, algorithm.smallest_first.
    rewrite (Permutation_length (sort_slots_Permutation _ a)).
    rewrite (Permutation_length (sort_slots_Permutation _ b)).
    exact Hlen.
Qed.

Lemma combine_tuples_length (k : nat) (a b : algorithm.Tuple) :
  length a = k -> length b = k ->
  length (algorithm.combine_tuples accumulator_max a b) = k.
Proof.
  intros Ha Hb. unfold algorithm.combine_tuples.
  rewrite length_map, length_combine.
  unfold algorithm.largest_first, algorithm.smallest_first.
  rewrite (Permutation_length (sort_slots_Permutation _ a)).
  rewrite (Permutation_length (sort_slots_Permutation _ b)).
  lia.
Qed.

Lemma queue_indices_Permutation (q q' : list algorithm.Tuple) :
  Permutation q q' -> Permutation (queue_indices q) (queue_indices q').
Proof.
  intros H. unfold queue_indices.
  apply Permutation_concat, Permutation_map, H.
Qed.

Lemma queue_indices_cons (t : algorithm.Tuple) (q : list algorithm.Tuple) :
  queue_indices (t :: q) = tuple_indices t ++ queue_indices q.
Proof. reflexivity. Qed.

(** The loop keeps the width of the tuples and the indices of the queue,
    and leaves at most one tuple. *)
Lemma differencing_invariant (k rounds : nat) (queue : list algorithm.Tuple) :
  Forall (fun t => length t = k) queue ->
  (length queue <= S rounds)%nat ->
  Forall (fun t => length t = k)
         (algorithm.differencing accumulator_max rounds queue) /\
  Permutation
    (queue_indices (algorithm.differencing accumulator_max rounds queue))
              (queue_indices queue) /\
  (length (algorithm.differencing accumulator_max rounds queue) <= 1)%nat.
Proof.
  revert queue. induction rounds as [| rounds IH]; intros queue Hk Hlen.
  - simpl. repeat split; [exact Hk | reflexivity | exact Hlen].
  - destruct queue as [| a [| b rest]]; simpl.
    + repeat split; [constructor | reflexivity | simpl; lia].
    + repeat split; [exact Hk | reflexivity | simpl; lia].
    + apply Forall_cons_iff in Hk as [Ha Hk'].
      apply Forall_cons_iff in Hk' as [Hb Hrest].
      destruct (IH (algorithm.enqueue
                      (algorithm.combine_tuples accumulator_max a b) rest))
        as (F & Pm & L).
      * rewrite enqueue_Permutation. constructor; [| exact Hrest].
        apply combine_tuples_length; assumption.
      * rewrite enqueue_length. simpl in Hlen. lia.
      * repeat split; [exact F | | exact L].
        rewrite Pm.
        rewrite (queue_indices_Permutation _ _ (enqueue_Permutation _ rest)).
        unfold queue_indices. simpl. rewrite app_assoc.
        apply Permutation_app_tail.
        apply combine_tuples_indices. congruence.
Qed.

Lemma starting_tuple_length (k : nat) op (row : list Item) :
  (length row <= k)%nat -> length (algorithm.starting_tuple k op row) = k.
Proof.
  intros Hk. unfold algorithm.starting_tuple.
  rewrite length_app, length_map, repeat_length. lia.
Qed.

Lemma starting_tuple_indices (k : nat) op (row : list Item) :
  tuple_indices (algorithm.starting_tuple k op row) = map fst row.
Proof.
  unfold tuple_indices, algorithm.starting_tuple.
  rewrite map_app, concat_app.
  replace (map snd (repeat (0, @nil Index) (k - length row)))
    with (repeat (@nil Index) (k - length row))
    by (induction (k - length row)%nat; simpl; congruence).
  rewrite length_concat_repeat_nil, app_nil_r.
  induction row as [| item row IH]; simpl; congruence.
Qed.

Lemma initial_queue_invariant (k : nat) op (items : list Item) :
  (0 < k)%nat ->
  Forall (fun t => length t = k) (algorithm.initial_queue k op items) /\
  Permutation (queue_indices (algorithm.initial_queue k op items))
              (map fst items).
Proof.
  intros Hk. unfold algorithm.initial_queue.
  pose proof (chunks_bounded (length items) k items Hk (Nat.le_refl _)) as Hb.
  replace (map fst items)
    with (map fst (List.concat (algorithm.chunks (length items) k items)))
    by (rewrite chunks_concat; reflexivity).
  revert Hb. generalize (algorithm.chunks (length items) k items).
  intros rows Hb.
  assert (G : forall queue,
    Forall (fun t => length t = k) queue ->
    let q' := fold_left
                (fun queue row =>
                   algorithm.enqueue (algorithm.starting_tuple k op row) queue)
                rows queue in
    Forall (fun t => length t = k) q' /\
    Permutation (queue_indices q')
                (queue_indices queue ++ map fst (List.concat rows))).
  { induction Hb as [| row rows Hrow _ IH]; intros queue Hq; simpl.
    - rewrite app_nil_r. split; [exact Hq | reflexivity].
    - destruct (IH (algorithm.enqueue (algorithm.starting_tuple k op row)
                      queue)) as (F & Pm).
      + rewrite enqueue_Permutation. constructor; [| exact Hq].
        apply starting_tuple_length, Hrow.
      + split; [exact F |].
        rewrite Pm.
        rewrite (queue_indices_Permutation _ _ (enqueue_Permutation _ queue)).
        rewrite queue_indices_cons, starting_tuple_indices, map_app.
        rewrite !app_assoc. apply Permutation_app_tail.
        apply Permutation_app_comm. }
  destruct (G [] (Forall_nil _)) as (F & Pm).
  split; [exact F | exact Pm].
Qed.

(** A positive target is accepted; the result has that many micro-batches
    and holds the indices of the items, each as often as the items do. *)
Lemma KarmarkarKarp_Done (items : list Item) (k : Z) op :
  0 < k ->
  exists micro_batches,
    algorithm.KarmarkarKarp accumulator_max items k op = Done micro_batches /\
    length micro_batches = Z.to_nat k /\
    Permutation (List.concat micro_batches) (map fst items).
Proof.
  intros Hk. unfold algorithm.KarmarkarKarp.
  replace (k =? 0) with false by (symmetry; apply Z.eqb_neq; lia).
  destruct (initial_queue_invariant (Z.to_nat k) op items ltac:(lia))
    as (F0 & P0).
  set (queue := algorithm.initial_queue (Z.to_nat k) op items) in *.
  destruct (differencing_invariant (Z.to_nat k) (length queue) queue F0
              ltac:(lia)) as (F & Pm & L).
  destruct (algorithm.differencing accumulator_max (length queue) queue)
    as [| t rest].
  - eexists. split; [reflexivity |]. split.
    + apply repeat_length.
    + rewrite length_concat_repeat_nil. rewrite <- P0, <- Pm. reflexivity.
  - destruct rest; [| simpl in L; lia].
    eexists. split; [reflexivity |]. split.
    + rewrite length_map. inversion F; assumption.
    + rewrite <- P0, <- Pm. unfold queue_indices. simpl.
      rewrite app_nil_r. reflexivity.
Qed.

(** *** Every micro-batch holds equally many indices *)

Lemma sort_slots_hold before (n : nat) (t : algorithm.Tuple) :
  slots_hold n t -> slots_hold n (algorithm.sort_slots before t).
Proof.
  unfold slots_hold. intros H.
  apply (Permutation_Forall
           (Permutation_sym (sort_slots_Permutation before t))).
  exact H.
Qed.

Lemma combine_tuples_hold (n m : nat) (a b : algorithm.Tuple) :
  slots_hold n a -> slots_hold m b ->
  slots_hold (n + m) (algorithm.combine_tuples accumulator_max a b).
Proof.
  intros Ha Hb. unfold algorithm.combine_tuples, slots_hold.
  apply Forall_map.
  pose proof (Forall_combine _ _ _ _
                (sort_slots_hold Z.gtb n a Ha)
                (sort_slots_hold Z.ltb m b Hb)) as H.
  revert H. apply Forall_impl. intros [x y] [Hx Hy]. cbn [fst snd] in *.
  rewrite length_app. lia.
Qed.

Lemma differencing_hold (rounds : nat) (queue : list algorithm.Tuple) :
  Forall (fun t => exists n, slots_hold n t) queue ->
  Forall (fun t => exists n, slots_hold n t)
         (algorithm.differencing accumulator_max rounds queue).
Proof.
  revert queue. induction rounds as [| rounds IH]; intros queue H.
  - exact H.
  - destruct queue as [| a [| b rest]]; simpl; try exact H.
    apply Forall_cons_iff in H as [[n Ha] H].
    apply Forall_cons_iff in H as [[m Hb] Hrest].
    apply IH.
    apply (Permutation_Forall
             (Permutation_sym (enqueue_Permutation _ rest))).
    constructor; [| exact Hrest].
    exists (n + m)%nat. apply combine_tuples_hold; assumption.
Qed.

Lemma starting_tuple_hold (k : nat) op (row : list Item) :
  length row = k -> slots_hold 1 (algorithm.starting_tuple k op row).
Proof.
  intros Hk. unfold algorithm.starting_tuple, slots_hold.
  rewrite Hk, Nat.sub_diag. simpl. rewrite app_nil_r.
  apply Forall_map, Forall_forall. reflexivity.
Qed.

Lemma initial_queue_hold (k c : nat) op (items : list Item) :
  (0 < k)%nat -> length items = (c * k)%nat ->
  Forall (fun t => exists n, slots_hold n t)
         (algorithm.initial_queue k op items).
Proof.
  intros Hk Hc. unfold algorithm.initial_queue.
  pose proof (chunks_full (fun _ => True) k c (length items) items Hk Hc
                (Nat.le_refl _) ltac:(apply Forall_forall; intros; exact I))
    as Hfull.
  revert Hfull. generalize (algorithm.chunks (length items) k items).
  intros rows Hfull.
  assert (G : forall queue,
    Forall (fun t => exists n, slots_hold n t) queue ->
    Forall (fun t => exists n, slots_hold n t)
           (fold_left
              (fun queue row =>
                 algorithm.enqueue (algorithm.starting_tuple k op row) queue)
              rows queue)).
  { induction Hfull as [| row rows [Hrow _] _ IH]; intros queue Hq; simpl.
    - exact Hq.
    - apply IH.
      apply (Permutation_Forall
               (Permutation_sym (enqueue_Permutation _ queue))).
      constructor; [| exact Hq].
      exists 1%nat. apply starting_tuple_hold, Hrow. }
  apply G. constructor.
Qed.

(** When the target divides the number of items, every micro-batch holds
    their quotient. *)
Lemma KarmarkarKarp_even (items : list Item) (k : Z) op (c : nat)
    (micro_batches : list (list Index)) :
  0 < k ->
  length items = (c * Z.to_nat k)%nat ->
  algorithm.KarmarkarKarp accumulator_max items k op = Done micro_batches ->
  Forall (fun mb => length mb = c) micro_batches.
Proof.
  intros Hk Hc E.
  destruct (KarmarkarKarp_Done items k op Hk) as (mbs & E' & Hl & Hp).
  rewrite E in E'. injection E' as <-.
  assert (Hn : exists n, Forall (fun mb => length mb = n) micro_batches).
  { unfold algorithm.KarmarkarKarp in E.
    replace (k =? 0) with false in E by (symmetry; apply Z.eqb_neq; lia).
    pose proof (differencing_hold
                  (length (algorithm.initial_queue (Z.to_nat k) op items))
                  _ (initial_queue_hold (Z.to_nat k) c op items
                       ltac:(lia) Hc)) as H.
    destruct (algorithm.differencing accumulator_max _ _) as [| t rest].
    - injection E as <-. exists 0%nat.
      apply Forall_forall. intros mb Hin. apply repeat_spec in Hin.
      subst mb. reflexivity.
    - injection E as <-. apply Forall_cons_iff in H as [[n Ht] _].
      exists n. apply Forall_map. exact Ht. }
  destruct Hn as [n Hn].
  pose proof (length_concat_uniform n micro_batches Hn) as Hcount.
  rewrite (Permutation_length Hp), length_map, Hc, Hl in Hcount.
  assert (n = c) by nia. subst n. exact Hn.
Qed.

(** The target zero is rejected. *)
Lemma KarmarkarKarp_zero (items : list Item) op :
  algorithm.KarmarkarKarp accumulator_max items 0 op = Aborted.
Proof. reflexivity. Qed.

End PartitionFacts.

(** ** The shuffle permutes the micro-batches *)

Lemma update_Permutation {A : Type} (l : list A) (j : nat) (x y : A) :
  nth_error l j = Some y ->
  Permutation (y :: algorithm.update l j x) (x :: l).
Proof.
  revert j. induction l as [| a l IH]; intros [| j] H; simpl in *;
    try discriminate.
  - injection H as ->. apply perm_swap.
  - rewrite perm_swap. rewrite (IH j H). apply perm_swap.
Qed.

Lemma nth_error_update {A : Type} (l : list A) (i j : nat) (x y : A) :
  nth_error l i = Some x ->
  nth_error l j = Some y ->
  nth_error (algorithm.update l i y) j = Some y.
Proof.
  revert i j. induction l as [| a l IH]; intros [| i] [| j] Hi Hj;
    simpl in *; try discriminate; try reflexivity; try assumption.
  eapply IH; eassumption.
Qed.

Lemma swap_Permutation {A : Type} (i j : nat) (l : list A) :
  Permutation (algorithm.swap i j l) l.
Proof.
  unfold algorithm.swap.
  destruct (nth_error l i) as [x |] eqn:Hi; [| reflexivity].
  destruct (nth_error l j) as [y |] eqn:Hj; [| reflexivity].
  apply Permutation_cons_inv with (a := y).
  rewrite (update_Permutation (algorithm.update l i y) j x y
             (nth_error_update l i j x y Hi Hj)).
  apply update_Permutation. exact Hi.
Qed.

Lemma fisher_yates_Permutation {A : Type} (prng : Z -> nat -> nat) (seed : Z)
    (drawn i : nat) (l : list A) :
  Permutation (algorithm.fisher_yates prng seed drawn i l) l.
Proof.
  revert drawn l. induction i as [| i IH]; intros drawn l; simpl.
  - reflexivity.
  - rewrite IH. apply swap_Permutation.
Qed.

Lemma shuffle_Permutation (prng : Z -> nat -> nat)
    (micro_batches : list (list Index)) (seed : Z) :
  Permutation (algorithm.shuffle prng micro_batches seed) micro_batches.
Proof. apply fisher_yates_Permutation. Qed.

(** ** Reshape deals every micro-batch to one rank *)

Lemma blocks_cover {A : Type} (mu ranks : nat) (group : list A) :
  (length group <= ranks * mu)%nat ->
  List.concat (map (fun rank => firstn mu (skipn (rank * mu) group))
                   (seq 0 ranks)) = group.
Proof.
  revert group. induction ranks as [| ranks IH]; intros group Hlen.
  - destruct group; [reflexivity | simpl in Hlen; lia].
  - change (seq 0 (S ranks)) with (0%nat :: seq 1 ranks).
    rewrite <- seq_shift. cbn [map List.concat]. rewrite map_map.
    change (0 * mu)%nat with 0%nat. cbn [skipn].
    rewrite <- (firstn_skipn mu group) at 2. f_equal.
    rewrite <- (IH (skipn mu group)) at 1.
    + f_equal. apply map_ext. intros rank.
      rewrite skipn_skipn. f_equal. f_equal. lia.
    + rewrite length_skipn. lia.
Qed.

Lemma concat_map_nil {A B : Type} (l : list B) :
  List.concat (map (fun _ => @nil A) l) = [].
Proof. induction l; simpl; auto. Qed.

Lemma concat_map_app {A B : Type} (f g : B -> list A) (l : list B) :
  Permutation (List.concat (map (fun x => f x ++ g x) l))
              (List.concat (map f l) ++ List.concat (map g l)).
Proof.
  induction l as [| x l IH]; simpl.
  - reflexivity.
  - rewrite IH. rewrite <- !app_assoc. apply Permutation_app_head.
    apply Permutation_app_swap_app.
Qed.

(** Collecting rank by rank or batch by batch gives the same elements. *)
Lemma concat_transpose {A R B : Type} (f : R -> B -> list A) (rs : list R)
    (bs : list B) :
  Permutation
    (List.concat (map (fun r => List.concat (map (f r) bs)) rs))
    (List.concat (map (fun b => List.concat (map (fun r => f r b) rs)) bs)).
Proof.
  induction rs as [| r rs IH]; simpl.
  - rewrite concat_map_nil. reflexivity.
  - rewrite IH. symmetry. apply concat_map_app.
Qed.

Lemma concat_map_concat {A : Type} (l : list (list (list A))) :
  List.concat (map (@List.concat A) l) = List.concat (List.concat l).
Proof.
  induction l as [| x l IH]; simpl.
  - reflexivity.
  - rewrite concat_app. congruence.
Qed.

(** The blocks of a global batch, full or not, reach all of it. *)
Lemma block_size_covers (ranks : nat) (group : list (list Index)) :
  (0 < ranks)%nat ->
  (length group <= ranks * algorithm.block_size ranks group)%nat.
Proof.
  intros H. unfold algorithm.block_size.
  pose proof (Nat.div_mod_eq (length group + ranks - 1) ranks) as E.
  pose proof (Nat.mod_upper_bound (length group + ranks - 1) ranks
                ltac:(lia)) as B.
  lia.
Qed.

Lemma reshape_length (micro_batches : list (list Index)) (P G : Z) :
  length (algorithm.reshape micro_batches P G) = Z.to_nat P.
Proof.
  unfold algorithm.reshape. rewrite length_map, length_seq. reflexivity.
Qed.

Lemma reshape_Permutation (micro_batches : list (list Index)) (P G : Z) :
  0 < P ->
  Permutation (List.concat (algorithm.reshape micro_batches P G))
              (List.concat micro_batches).
Proof.
  intros HP. unfold algorithm.reshape.
  set (mu := Z.to_nat (G / P / Z.of_nat (length (hd [] micro_batches)))).
  set (ranks := Z.to_nat P).
  set (batches := algorithm.chunks (length micro_batches) (ranks * mu)
                    micro_batches).
  rewrite (concat_transpose
             (fun rank group =>
                List.concat
                  (algorithm.rank_block (algorithm.block_size ranks group)
                     rank group))).
  replace (List.concat micro_batches)
    with (List.concat (List.concat batches))
    by (unfold batches; rewrite chunks_concat; reflexivity).
  rewrite <- concat_map_concat.
  replace (map (fun b =>
                  List.concat
                    (map (fun r =>
                            List.concat
                              (algorithm.rank_block
                                 (algorithm.block_size ranks b) r b))
                         (seq 0 ranks))) batches)
    with (map (@List.concat Index) batches); [reflexivity |].
  apply map_ext. intros group.
  rewrite <- (map_map (fun r =>
                         algorithm.rank_block
                           (algorithm.block_size ranks group) r group)
                      (@List.concat Index)).
  rewrite concat_map_concat. unfold algorithm.rank_block.
  rewrite blocks_cover; [reflexivity |].
  apply block_size_covers. subst ranks. lia.
Qed.

(** ** Concat appends row by row *)

Lemma concat_length (head tail : list (list Index)) :
  length (algorithm.concat head tail) = length head.
Proof.
  revert tail. induction head as [| h head IH]; intros [| t tail]; simpl;
    try reflexivity.
  rewrite IH. reflexivity.
Qed.

Lemma concat_Permutation (head tail : list (list Index)) :
  length head = length tail ->
  Permutation (List.concat (algorithm.concat head tail))
              (List.concat head ++ List.concat tail).
Proof.
  revert tail. induction head as [| h head IH]; intros [| t tail] Hlen;
    simpl in *; try discriminate.
  - reflexivity.
  - rewrite (IH tail) by lia. rewrite <- !app_assoc.
    apply Permutation_app_head. apply Permutation_app_swap_app.
Qed.

(** ** The arithmetic of the two branches *)

(** The branch test [M == L] asks whether [M] divides [per_rank]. *)
Lemma uniform_iff_divides (sizes : list Size) (P G M : Z) :
  Preconditions sizes P G M ->
  (M = spec_last_micro_batch_size sizes P M <-> per_rank sizes P mod M = 0).
Proof.
  intros Hpre. destruct (per_rank_bounds _ _ _ _ Hpre) as [Hq _].
  destruct Hpre as (HP & HG & HM & _).
  unfold spec_last_micro_batch_size.
  rewrite branchless_last by lia.
  pose proof (Z.mod_pos_bound (per_rank sizes P) M ltac:(lia)) as B.
  destruct (Z.eqb_spec (per_rank sizes P mod M) 0); lia.
Qed.

(** Uniform case: [K * M] covers the [P * per_rank = N] samples. *)
Lemma uniform_coverage (sizes : list Size) (P G M : Z) :
  Preconditions sizes P G M ->
  per_rank sizes P mod M = 0 ->
  spec_num_micro_batches sizes P M * M = P * per_rank sizes P /\
  0 < spec_num_micro_batches sizes P M.
Proof.
  intros Hpre Hdiv. destruct (per_rank_bounds _ _ _ _ Hpre) as [Hq _].
  pose proof (ceil_div_bounds (per_rank sizes P) M) as Hc.
  destruct Hpre as (HP & HG & HM & _).
  unfold spec_num_micro_batches in *. unfold ceil_div in *. rewrite Hdiv in *.
  simpl in *.
  pose proof (Z.div_mod (per_rank sizes P) M ltac:(lia)) as E.
  split; nia.
Qed.

(** Tail case: [(K - P) * M + P * L] covers them; the head is empty exactly
    when a rank has fewer than [M] samples. *)
Lemma tail_coverage (sizes : list Size) (P G M : Z) :
  Preconditions sizes P G M ->
  per_rank sizes P mod M <> 0 ->
  let K := spec_num_micro_batches sizes P M in
  let L := spec_last_micro_batch_size sizes P M in
  (K - P) * M + P * L = P * per_rank sizes P /\
  K - P = per_rank sizes P / M * P /\
  0 <= K - P /\
  1 <= L < M /\
  (0 < K - P <-> M < per_rank sizes P).
Proof.
  intros Hpre Hdiv. destruct (per_rank_bounds _ _ _ _ Hpre) as [Hq _].
  destruct Hpre as (HP & HG & HM & _).
  unfold spec_num_micro_batches, spec_last_micro_batch_size.
  rewrite branchless_last by lia. unfold ceil_div.
  pose proof (Z.div_mod (per_rank sizes P) M ltac:(lia)) as E.
  pose proof (Z.mod_pos_bound (per_rank sizes P) M ltac:(lia)) as B.
  pose proof (Z.div_pos (per_rank sizes P) M ltac:(lia) ltac:(lia)) as Dp.
  destruct (Z.eqb_spec (per_rank sizes P mod M) 0) as [H0 | H0]; [lia |].
  cbv zeta.
  assert (Hiff : 0 < per_rank sizes P / M <-> M < per_rank sizes P).
  { split; intros H; [nia |].
    apply Z.div_str_pos. lia. }
  repeat split; try nia; try lia.
Qed.

(** The sizes passed to [take] do not wrap and add up to [N]. *)
Lemma take_requests_total (bits : N) (sizes : list Size) (P G M seed : Z)
    (this : Scheduler) :
  Preconditions sizes P G M ->
  Representable bits sizes P G M seed ->
  Configured sizes P G M seed this ->
  let K := spec_num_micro_batches sizes P M in
  let L := spec_last_micro_batch_size sizes P M in
  take_requests bits this
    = (if M =? L then [M * K] else [M * (K - P); L * P]) /\
  (M <> L -> usub bits K P = K - P) /\
  sum_Z (take_requests bits this) = vector_size sizes /\
  Forall (fun n => 0 <= n) (take_requests bits this).
Proof.
  intros Hpre Hrep (EP & EG & EM & Eseed & EK & EL).
  destruct (per_rank_bounds _ _ _ _ Hpre) as [Hq HqP].
  pose proof (uniform_iff_divides sizes P G M Hpre) as Hiff.
  pose proof (uniform_coverage sizes P G M Hpre) as Hu.
  pose proof (tail_coverage sizes P G M Hpre) as Ht.
  destruct Hrep as (RP & RG & RM & Rseed & RN).
  assert (HP : 0 < P) by (destruct Hpre; lia).
  assert (HM : 0 < M) by (destruct Hpre as (_ & _ & ? & _); lia).
  unfold take_requests. rewrite EP, EM, EK, EL. cbv zeta.
  unfold representable in *.
  destruct (Z.eqb_spec M (spec_last_micro_batch_size sizes P M)) as [Eu | Et].
  - destruct (Hu (proj1 Hiff Eu)) as [Hcov HK].
    assert (W : umul bits M (spec_num_micro_batches sizes P M)
                = M * spec_num_micro_batches sizes P M).
    { apply wrap_small. unfold representable. nia. }
    rewrite W. split; [reflexivity |]. split; [intros; contradiction |].
    split; [unfold sum_Z; simpl; nia |].
    repeat constructor. nia.
  - assert (Hdiv : per_rank sizes P mod M <> 0) by tauto.
    destruct (Ht Hdiv) as (Hcov & HKP & HKP0 & HL & _).
    assert (W0 : usub bits (spec_num_micro_batches sizes P M) P
                 = spec_num_micro_batches sizes P M - P).
    { apply wrap_small. unfold representable. nia. }
    rewrite W0.
    assert (W1 : umul bits M (spec_num_micro_batches sizes P M - P)
                 = M * (spec_num_micro_batches sizes P M - P)).
    { apply wrap_small. unfold representable. nia. }
    assert (W2 : umul bits (spec_last_micro_batch_size sizes P M) P
                 = spec_last_micro_batch_size sizes P M * P).
    { apply wrap_small. unfold representable. nia. }
    rewrite W1, W2.
    split; [reflexivity |]. split; [intros _; reflexivity |].
    split; [unfold sum_Z; simpl; nia |].
    repeat constructor; nia.
Qed.

(** ** Runs of [Schedule()] *)

Lemma take_Done (n : Z) (d : data.Dataset) :
  (Z.to_nat n <= length (data.ds_pending d))%nat ->
  data.take n d
  = Done (firstn (Z.to_nat n) (data.ds_pending d), data.advance (Z.to_nat n) d).
Proof.
  intros H. unfold data.take.
  destruct (Nat.leb_spec (Z.to_nat n) (length (data.ds_pending d)));
    [reflexivity | lia].
Qed.

Section ScheduleFacts.

Variable bits : N.
Variable accumulator_max : Z.
Variable prng : Z -> nat -> nat.


(** The uniform branch, when the dataset holds the items asked for. *)
Lemma Schedule_uniform_run (this : Scheduler) :
  let M := micro_batch_size_ this in
  let K := num_micro_batches_ this in
  let P := data_parallel_size_ this in
  let G := global_batch_size_ this in
  let seed := uadd bits (epoch_ this) (seed_ this) in
  let n := umul bits M K in
  let items := firstn (Z.to_nat n) (data.ds_pending (dataset_ this)) in
  M = last_micro_batch_size_ this ->
  0 < K ->
  (Z.to_nat n <= length (data.ds_pending (dataset_ this)))%nat ->
  exists micro_batches,
    algorithm.KarmarkarKarp accumulator_max items K
      (data.OverflowSafeCast accumulator_max) = Done micro_batches /\
    length micro_batches = Z.to_nat K /\
    Permutation (List.concat micro_batches) (map fst items) /\
    Schedule bits accumulator_max prng this
    = (Done (algorithm.reshape (algorithm.shuffle prng micro_batches seed)
               P G),
       set_dataset this (data.advance (Z.to_nat n) (dataset_ this)),
       [CallTake n; CallKarmarkarKarp items K;
        CallShuffle micro_batches seed;
        CallReshape (algorithm.shuffle prng micro_batches seed) P G]).
Proof.
  intros M K P G seed n items Eu HK Hlen.
  destruct (KarmarkarKarp_Done accumulator_max items K
              (data.OverflowSafeCast accumulator_max) HK)
    as (micro_batches & EKK & Hl & Hp).
  exists micro_batches. repeat split; try assumption.
  unfold Schedule. fold M K P G. rewrite <- Eu, Z.eqb_refl.
  unfold mbind, dataset_take, call_KarmarkarKarp, call_shuffle, call_reshape,
    call, mret.
  fold n. rewrite (take_Done n _ Hlen). fold items.
  rewrite EKK. reflexivity.
Qed.

(** The tail branch with a non-empty head. *)
Lemma Schedule_tail_run (this : Scheduler) :
  let M := micro_batch_size_ this in
  let L := last_micro_batch_size_ this in
  let K := num_micro_batches_ this in
  let P := data_parallel_size_ this in
  let G := global_batch_size_ this in
  let seed := uadd bits (epoch_ this) (seed_ this) in
  let n := umul bits M (usub bits K P) in
  let n' := umul bits L P in
  let items := firstn (Z.to_nat n) (data.ds_pending (dataset_ this)) in
  let last_items :=
    firstn (Z.to_nat n')
      (skipn (Z.to_nat n) (data.ds_pending (dataset_ this))) in
  M <> L ->
  0 < usub bits K P ->
  0 < P ->
  (Z.to_nat n + Z.to_nat n' <= length (data.ds_pending (dataset_ this)))%nat ->
  exists micro_batches last_micro_batches,
    algorithm.KarmarkarKarp accumulator_max items (usub bits K P)
      (data.OverflowSafeCast accumulator_max) = Done micro_batches /\
    length micro_batches = Z.to_nat (usub bits K P) /\
    Permutation (List.concat micro_batches) (map fst items) /\
    algorithm.KarmarkarKarp accumulator_max last_items P
      (data.OverflowSafeCast accumulator_max) = Done last_micro_batches /\
    length last_micro_batches = Z.to_nat P /\
    Permutation (List.concat last_micro_batches) (map fst last_items) /\
    Schedule bits accumulator_max prng this
    = (Done (algorithm.concat
               (algorithm.reshape (algorithm.shuffle prng micro_batches seed)
                  P G)
               (algorithm.reshape
                  (algorithm.shuffle prng last_micro_batches seed) P G)),
       set_dataset this
         (data.advance (Z.to_nat n')
            (data.advance (Z.to_nat n) (dataset_ this))),
       [CallTake n; CallKarmarkarKarp items (usub bits K P);
        CallTake n'; CallKarmarkarKarp last_items P;
        CallShuffle micro_batches seed;
        CallReshape (algorithm.shuffle prng micro_batches seed) P G;
        CallShuffle last_micro_batches seed;
        CallReshape (algorithm.shuffle prng last_micro_batches seed) P G;
        CallConcat]).
Proof.
  intros M L K P G seed n n' items last_items Et HKP HP Hlen.
  destruct (KarmarkarKarp_Done accumulator_max items (usub bits K P)
              (data.OverflowSafeCast accumulator_max) HKP)
    as (micro_batches & EKK & Hl & Hp).
  destruct (KarmarkarKarp_Done accumulator_max last_items P
              (data.OverflowSafeCast accumulator_max) HP)
    as (last_micro_batches & EKK' & Hl' & Hp').
  exists micro_batches, last_micro_batches. repeat split; try assumption.
  unfold Schedule. fold M L K P G.
  replace (M =? L) with false by (symmetry; apply Z.eqb_neq; exact Et).
  unfold mbind, dataset_take, call_KarmarkarKarp, call_shuffle, call_reshape,
    call_concat, call, mret.
  fold n n'. rewrite (take_Done n _) by lia. fold items.
  rewrite EKK. cbn [dataset_ set_dataset].
  rewrite (take_Done n' _)
    by (unfold data.advance; cbn [data.ds_pending]; rewrite length_skipn; lia).
  unfold data.advance at 1. cbn [data.ds_pending]. fold last_items.
  rewrite EKK'. reflexivity.
Qed.

(** The tail branch with an empty head: the partitioner is asked for zero
    micro-batches of no items, and rejects. *)
Lemma Schedule_empty_head_run (this : Scheduler) :
  let M := micro_batch_size_ this in
  let K := num_micro_batches_ this in
  let P := data_parallel_size_ this in
  M <> last_micro_batch_size_ this ->
  usub bits K P = 0 ->
  Schedule bits accumulator_max prng this
  = (Aborted, set_dataset this (data.advance 0 (dataset_ this)),
     [CallTake 0; CallKarmarkarKarp [] 0]).
Proof.
  intros M K P Et HKP.
  unfold Schedule. fold M K P.
  replace (M =? last_micro_batch_size_ this) with false
    by (symmetry; apply Z.eqb_neq; exact Et).
  unfold mbind, dataset_take, call_KarmarkarKarp, call.
  rewrite HKP.
  replace (umul bits M 0) with 0
    by (unfold umul, wrap; rewrite Z.mul_0_r; symmetry; apply Z.mod_0_l;
        pose proof (modulus_pos bits); lia).
  rewrite (take_Done 0 _) by (simpl; lia).
  reflexivity.
Qed.

End ScheduleFacts.

(** ** A complete epoch *)

Lemma micro_batches_per_step_pos (sizes : list Size) (P G M : Z) :
  Preconditions sizes P G M -> 0 < G / P / M.
Proof.
  intros (HP & HG & HM & HGP & HGM & _).
  pose proof (Z.div_mod G P ltac:(lia)) as E1.
  pose proof (Z.div_mod (G / P) M ltac:(lia)) as E2.
  rewrite HGP in E1. rewrite HGM in E2. nia.
Qed.

Lemma EpochOpen_length (sizes : list Size) (this : Scheduler) :
  EpochOpen sizes this ->
  length (data.ds_pending (dataset_ this)) = length sizes.
Proof.
  intros H. apply Permutation_length in H.
  unfold indices_upto in H. rewrite !length_map, length_seq in H. exact H.
Qed.

Lemma firstn_firstn_skipn {A : Type} (n n' : nat) (l : list A) :
  (n + n')%nat = length l ->
  firstn n l ++ firstn n' (skipn n l) = l.
Proof.
  intros H. rewrite (firstn_all2 (skipn n l)).
  - apply firstn_skipn.
  - rewrite length_skipn. lia.
Qed.

Section EpochFacts.

Variable bits : N.
Variable accumulator_max : Z.
Variable prng : Z -> nat -> nat.
Variable sizes : list Size.
Variables P G M seed : Z.
Variable this : Scheduler.

Hypothesis Hpre : Preconditions sizes P G M.
Hypothesis Hrep : Representable bits sizes P G M seed.
Hypothesis Hcfg : Configured sizes P G M seed this.
Hypothesis Hopen : EpochOpen sizes this.

(** What [Schedule()] does at the beginning of an epoch, unless the head of a
    tail schedule is empty: the uniform branch, or the tail branch. *)
Lemma Schedule_cases :
  M = spec_last_micro_batch_size sizes P M \/ M < per_rank sizes P ->
  (M = spec_last_micro_batch_size sizes P M /\
   exists items micro_batches this',
     Schedule bits accumulator_max prng this
     = (Done (algorithm.reshape
                (algorithm.shuffle prng micro_batches (shuffle_seed bits this))
                P G),
        this',
        [CallTake (M * spec_num_micro_batches sizes P M);
         CallKarmarkarKarp items (spec_num_micro_batches sizes P M);
         CallShuffle micro_batches (shuffle_seed bits this);
         CallReshape
           (algorithm.shuffle prng micro_batches (shuffle_seed bits this))
           P G]) /\
     this' = set_dataset this (dataset_ this') /\
     data.ds_pending (dataset_ this') = [] /\
     Z.of_nat (length items) = M * spec_num_micro_batches sizes P M /\
     0 < spec_num_micro_batches sizes P M /\
     length micro_batches = Z.to_nat (spec_num_micro_batches sizes P M) /\
     Permutation (List.concat micro_batches) (indices_upto (length sizes)) /\
     Forall (fun mb => Z.of_nat (length mb) = M) micro_batches)
  \/
  (M <> spec_last_micro_batch_size sizes P M /\
   exists items last_items micro_batches last_micro_batches this',
     let K := spec_num_micro_batches sizes P M in
     let L := spec_last_micro_batch_size sizes P M in
     Schedule bits accumulator_max prng this
     = (Done (algorithm.concat
                (algorithm.reshape
                   (algorithm.shuffle prng micro_batches
                      (shuffle_seed bits this))
                   P G)
                (algorithm.reshape
                   (algorithm.shuffle prng last_micro_batches
                      (shuffle_seed bits this))
                   P G)),
        this',
        [CallTake (M * (K - P)); CallKarmarkarKarp items (K - P);
         CallTake (L * P); CallKarmarkarKarp last_items P;
         CallShuffle micro_batches (shuffle_seed bits this);
         CallReshape
           (algorithm.shuffle prng micro_batches (shuffle_seed bits this))
           P G;
         CallShuffle last_micro_batches (shuffle_seed bits this);
         CallReshape
           (algorithm.shuffle prng last_micro_batches (shuffle_seed bits this))
           P G;
         CallConcat]) /\
     this' = set_dataset this (dataset_ this') /\
     data.ds_pending (dataset_ this') = [] /\
     Z.of_nat (length items) = M * (K - P) /\
     Z.of_nat (length last_items) = L * P /\
     0 < K - P /\
     length micro_batches = Z.to_nat (K - P) /\
     length last_micro_batches = Z.to_nat P /\
     Permutation (List.concat micro_batches ++ List.concat last_micro_batches)
                 (indices_upto (length sizes)) /\
     Forall (fun mb => Z.of_nat (length mb) = M) micro_batches /\
     Forall (fun mb => Z.of_nat (length mb) = L) last_micro_batches).
Proof.
  intros Hhead.
  pose proof (take_requests_total bits sizes P G M seed this Hpre Hrep Hcfg)
    as (Etake & Esub & Esum & Hnn).
  rewrite Etake in Hnn.
  pose proof (EpochOpen_length sizes this Hopen) as Hlen.
  pose proof (uniform_iff_divides sizes P G M Hpre) as Hiff.
  destruct Hcfg as (EP & EG & EM & Eseed & EK & EL).
  assert (HP : 0 < P) by (destruct Hpre; lia).
  unfold take_requests in Etake. rewrite EP, EM, EK, EL in Etake.
  unfold sum_Z, take_requests in Esum. rewrite EP, EM, EK, EL in Esum.
  unfold vector_size in Esum.
  destruct (Z.eqb_spec M (spec_last_micro_batch_size sizes P M)) as [Eu | Et].
  - left. split; [exact Eu |].
    injection Etake as Etake. simpl in Esum.
    destruct (uniform_coverage sizes P G M Hpre (proj1 Hiff Eu)) as [_ HK].
    destruct (Schedule_uniform_run bits accumulator_max prng this)
      as (micro_batches & EKK & Hl & Hp & Erun).
    + rewrite EM, EL. exact Eu.
    + rewrite EK. exact HK.
    + rewrite EM, EK, Etake. lia.
    + rewrite EP, EG, EM, EK, Etake in *.
      fold (shuffle_seed bits this) in Erun.
      replace (Z.to_nat (M * spec_num_micro_batches sizes P M))
        with (length (data.ds_pending (dataset_ this))) in * by lia.
      rewrite firstn_all in *.
      eexists _, micro_batches, _. split; [exact Erun |].
      repeat split.
      * unfold data.advance. cbn [dataset_ set_dataset data.ds_pending].
        apply skipn_all.
      * lia.
      * exact HK.
      * exact Hl.
      * rewrite Hp. exact Hopen.
      * apply (KarmarkarKarp_even accumulator_max _ _ _ (Z.to_nat M)) in EKK;
          [| exact HK | nia].
        revert EKK. apply Forall_impl. intros mb Emb. lia.
  - right. split; [exact Et |].
    specialize (Esub Et).
    injection Etake as Etake Etake'. simpl in Esum.
    apply Forall_cons_iff in Hnn as [Hnn Hnn'].
    apply Forall_cons_iff in Hnn' as [Hnn' _].
    assert (Hdiv : per_rank sizes P mod M <> 0) by tauto.
    destruct (tail_coverage sizes P G M Hpre Hdiv) as (_ & _ & _ & _ & Hne).
    assert (HKP : 0 < spec_num_micro_batches sizes P M - P)
      by (apply Hne; tauto).
    destruct (Schedule_tail_run bits accumulator_max prng this)
      as (micro_batches & last_micro_batches & EKK & Hl & Hp & EKK' & Hl'
          & Hp' & Erun).
    + rewrite EM, EL. exact Et.
    + rewrite EK, EP, Esub. exact HKP.
    + rewrite EP. exact HP.
    + rewrite EM, EK, EP, EL, Esub in *. rewrite Etake, Etake'. lia.
    + rewrite EP, EG, EM, EK, EL, Esub in *.
      rewrite Etake, Etake' in *.
      fold (shuffle_seed bits this) in Erun.
      cbv zeta.
      eexists _, _, micro_batches, last_micro_batches, _.
      split; [exact Erun |].
      repeat split.
      * unfold data.advance. cbn [dataset_ set_dataset data.ds_pending].
        rewrite skipn_skipn. apply skipn_all2. lia.
      * rewrite length_firstn. lia.
      * rewrite length_firstn, length_skipn. lia.
      * exact HKP.
      * exact Hl.
      * exact Hl'.
      * rewrite Hp, Hp', <- map_app.
        rewrite firstn_firstn_skipn; [exact Hopen | lia].
      * apply (KarmarkarKarp_even accumulator_max _ _ _ (Z.to_nat M)) in EKK;
          [| exact HKP | rewrite length_firstn; nia].
        revert EKK. apply Forall_impl. intros mb Emb. lia.
      * apply (KarmarkarKarp_even accumulator_max _ _ _
                 (Z.to_nat (spec_last_micro_batch_size sizes P M))) in EKK';
          [| exact HP | rewrite length_firstn, length_skipn; nia].
        revert EKK'. apply Forall_impl. intros mb Emb. lia.
Qed.

End EpochFacts.

(** When a rank holds at least [M] samples, or a multiple of [M], the
    schedule of an epoch has [P] rows and carries every index once. *)
Lemma Schedule_Permutation (bits : N) (accumulator_max : Z)
    (prng : Z -> nat -> nat) (sizes : list Size) (P G M seed : Z)
    (this : Scheduler) :
  Preconditions sizes P G M ->
  Representable bits sizes P G M seed ->
  Configured sizes P G M seed this ->
  EpochOpen sizes this ->
  M = spec_last_micro_batch_size sizes P M \/ M < per_rank sizes P ->
  exists rows this' calls,
    Schedule bits accumulator_max prng this = (Done rows, this', calls) /\
    length rows = Z.to_nat P /\
    Permutation (List.concat rows) (indices_upto (length sizes)).
Proof.
  intros Hpre Hrep Hcfg Hopen Hhead.
  assert (HP : 0 < P) by (destruct Hpre; lia).
  pose proof (micro_batches_per_step_pos sizes P G M Hpre) as Hmu.
  destruct (Schedule_cases bits accumulator_max prng sizes P G M seed this
              Hpre Hrep Hcfg Hopen Hhead)
    as [(_ & items & mbs & this' & Erun & _ & _ & _ & _ & _ & Hperm & _)
       | (_ & items & last_items & mbs & last_mbs & this' & Erun & _ & _ & _
          & _ & _ & _ & _ & Hperm & _)].
  - eexists _, _, _. split; [exact Erun |]. split.
    + apply reshape_length.
    + rewrite reshape_Permutation by assumption.
      rewrite (Permutation_concat _ _ (shuffle_Permutation prng mbs _)).
      exact Hperm.
  - cbv zeta in Erun. eexists _, _, _. split; [exact Erun |]. split.
    + rewrite concat_length. apply reshape_length.
    + rewrite concat_Permutation by (rewrite !reshape_length; reflexivity).
      rewrite !reshape_Permutation by assumption.
      rewrite (Permutation_concat _ _ (shuffle_Permutation prng mbs _)).
      rewrite (Permutation_concat _ _ (shuffle_Permutation prng last_mbs _)).
      exact Hperm.
Qed.

(** When a rank holds fewer than [M] samples, [Schedule()] asks the
    partitioner for zero micro-batches, and the call is rejected. *)
Lemma Schedule_aborts_below_micro_batch (bits : N) (accumulator_max : Z)
    (prng : Z -> nat -> nat) (sizes : list Size) (P G M seed : Z)
    (this : Scheduler) :
  Preconditions sizes P G M ->
  Representable bits sizes P G M seed ->
  Configured sizes P G M seed this ->
  per_rank sizes P < M ->
  Schedule bits accumulator_max prng this
  = (Aborted, set_dataset this (data.advance 0 (dataset_ this)),
     [CallTake 0; CallKarmarkarKarp [] 0]).
Proof.
  intros Hpre Hrep Hcfg Hlt.
  destruct (per_rank_bounds _ _ _ _ Hpre) as [Hq _].
  pose proof (take_requests_total bits sizes P G M seed this Hpre Hrep Hcfg)
    as (_ & Esub & _).
  assert (Hdiv : per_rank sizes P mod M <> 0)
    by (rewrite Z.mod_small; lia).
  pose proof (uniform_iff_divides sizes P G M Hpre) as Hiff.
  destruct (tail_coverage sizes P G M Hpre Hdiv) as (_ & _ & HKP & _ & Hne).
  destruct Hcfg as (EP & EG & EM & Eseed & EK & EL).
  apply Schedule_empty_head_run.
  - rewrite EM, EL. tauto.
  - rewrite EK, EP, Esub by tauto. lia.
Qed.

(** The sizes a completed [Schedule()] asked the dataset for. *)
Lemma Schedule_Done_taken (bits : N) (accumulator_max : Z)
    (prng : Z -> nat -> nat) (this this' : Scheduler)
    (rows : list (list Index)) (calls : list Call) :
  Schedule bits accumulator_max prng this = (Done rows, this', calls) ->
  taken calls = take_requests bits this.
Proof.
  unfold Schedule, take_requests.
  destruct (micro_batch_size_ this =? last_micro_batch_size_ this);
    unfold mbind, dataset_take, call_KarmarkarKarp, call_shuffle, call_reshape,
      call_concat, call, mret.
  - destruct (data.take _ (dataset_ this)) as [[items d] |];
      [| discriminate].
    destruct (algorithm.KarmarkarKarp _ items _ _); [| discriminate].
    intros H. injection H as _ _ <-. reflexivity.
  - destruct (data.take _ (dataset_ this)) as [[items d] |];
      [| discriminate].
    destruct (algorithm.KarmarkarKarp _ items _ _); [| discriminate].
    cbn [dataset_ set_dataset].
    destruct (data.take _ d) as [[last_items d'] |]; [| discriminate].
    destruct (algorithm.KarmarkarKarp _ last_items _ _); [| discriminate].
    intros H. injection H as _ _ <-. reflexivity.
Qed.

(** ** Coverage *)

(** Under the preconditions of §3 the constants the constructor derives
    satisfy [K * M = P * per_rank] when [L = M] and
    [(K - P) * M + P * L = P * per_rank] otherwise; the sizes [Schedule()]
    passes to [take] are [M * K], respectively [M * (K - P)] and [L * P],
    without wrap-around, and add up to [N = per_rank * P]; a completed
    [Schedule()] has asked the dataset for exactly these, and at the
    beginning of an epoch [Schedule()] completes when a rank holds a multiple
    of [M] samples or more than [M]. *)
Theorem coverage_identity (bits : N) (sizes : list Size)
    (P G M seed indeterminate : Z) :
  Preconditions sizes P G M ->
  Representable bits sizes P G M seed ->
  exists this,
    Scheduler_ctor bits (Some sizes) P G M seed indeterminate = Done this /\
    let K := num_micro_batches_ this in
    let L := last_micro_batch_size_ this in
    (L = M -> K * M = P * per_rank sizes P) /\
    (L <> M -> (K - P) * M + P * L = P * per_rank sizes P) /\
    take_requests bits this
      = (if M =? L then [M * K] else [M * (K - P); L * P]) /\
    sum_Z (take_requests bits this) = vector_size sizes /\
    vector_size sizes = per_rank sizes P * P /\
    (forall accumulator_max prng that that' rows calls,
       Configured sizes P G M seed that ->
       Schedule bits accumulator_max prng that = (Done rows, that', calls) ->
       taken calls = take_requests bits this /\
       sum_Z (taken calls) = vector_size sizes) /\
    (forall accumulator_max prng that,
       Configured sizes P G M seed that ->
       EpochOpen sizes that ->
       L = M \/ M < per_rank sizes P ->
       exists rows that' calls,
         Schedule bits accumulator_max prng that = (Done rows, that', calls)).
Proof.
  intros Hpre Hrep.
  destruct (Scheduler_ctor_Done bits sizes P G M seed indeterminate Hpre Hrep)
    as (this & E & Hcfg & _).
  exists this. split; [exact E |].
  pose proof (take_requests_total bits sizes P G M seed this Hpre Hrep Hcfg)
    as (Etake & _ & Esum & _).
  destruct (per_rank_bounds _ _ _ _ Hpre) as [_ HqP].
  pose proof (uniform_iff_divides sizes P G M Hpre) as Hiff.
  pose proof (uniform_coverage sizes P G M Hpre) as Hu.
  pose proof (tail_coverage sizes P G M Hpre) as Ht.
  pose proof Hcfg as (EP & EG & EM & Eseed & EK & EL).
  cbv zeta. rewrite EK, EL.
  split; [intros Eu; apply (Hu (proj1 Hiff (eq_sym Eu))) |].
  split; [intros Et; apply Ht; intros Hdiv; apply Et; symmetry;
          apply Hiff; exact Hdiv |].
  split; [exact Etake |].
  split; [exact Esum |].
  split; [symmetry; exact HqP |].
  split.
  - intros accumulator_max prng that that' rows calls Hcfg' Erun.
    rewrite (Schedule_Done_taken _ _ _ _ _ _ _ Erun).
    assert (Esame : take_requests bits that = take_requests bits this).
    { destruct Hcfg' as (EP' & EG' & EM' & Eseed' & EK' & EL').
      unfold take_requests.
      rewrite EP', EM', EK', EL', EP, EM, EK, EL. reflexivity. }
    rewrite Esame. split; [reflexivity | exact Esum].
  - intros accumulator_max prng that Hcfg' Hopen Hhead.
    destruct (Schedule_Permutation bits accumulator_max prng sizes P G M seed
                that Hpre Hrep Hcfg' Hopen)
      as (rows & that' & calls & Erun & _).
    + destruct Hhead as [Eu | Hlt]; [left; congruence | right; exact Hlt].
    + exists rows, that', calls. exact Erun.
Qed.

(** ** The calls of the two branches *)

Lemma take_length (n : Z) (d d' : data.Dataset) (items : list Item) :
  data.take n d = Done (items, d') -> length items = Z.to_nat n.
Proof.
  unfold data.take.
  destruct (Nat.leb_spec (Z.to_nat n) (length (data.ds_pending d)));
    [| discriminate].
  intros E. injection E as <- _. rewrite length_firstn. lia.
Qed.

(** The calls of [Schedule()] by branch, in whatever state the dataset is:
    the first call is the first [take] of the branch, the uniform branch
    partitions once, into [K], and never concatenates, and the tail branch
    partitions into [K - P] and into [P]. *)
Lemma Schedule_branch_calls (bits : N) (accumulator_max : Z)
    (prng : Z -> nat -> nat) (this : Scheduler) :
  let M := micro_batch_size_ this in
  let L := last_micro_batch_size_ this in
  let K := num_micro_batches_ this in
  let P := data_parallel_size_ this in
  let calls := snd (Schedule bits accumulator_max prng this) in
  hd_error calls = Some (CallTake (hd 0 (take_requests bits this))) /\
  (M = L ->
   ~ In CallConcat calls /\
   forall items k,
     In (items, k) (partitioned calls) ->
     k = K /\ length items = Z.to_nat (umul bits M K)) /\
  (M <> L ->
   forall items k,
     In (items, k) (partitioned calls) ->
     k = usub bits K P /\
     length items = Z.to_nat (umul bits M (usub bits K P)) \/
     k = P /\ length items = Z.to_nat (umul bits L P)).
Proof.
  cbv zeta. unfold Schedule, take_requests.
  destruct (Z.eqb_spec (micro_batch_size_ this) (last_micro_batch_size_ this))
    as [Eu | Et];
    unfold mbind, dataset_take, call_KarmarkarKarp, call_shuffle, call_reshape,
      call_concat, call, mret.
  - destruct (data.take _ (dataset_ this)) as [[items d] |] eqn:Etake.
    + apply take_length in Etake.
      destruct (algorithm.KarmarkarKarp _ items _ _);
        (split; [reflexivity |]);
        (split; [intros _ | intros H; contradiction]);
        (split; [cbn; intuition discriminate |]);
        intros items' k; cbn [snd partitioned flat_map app];
        intros [E | []]; injection E as <- <-; split;
        [reflexivity | exact Etake | reflexivity | exact Etake].
    + split; [reflexivity |].
      split; [intros _ | intros H; contradiction].
      split; [cbn; intuition discriminate |].
      intros items' k [].
  - destruct (data.take _ (dataset_ this)) as [[items d] |] eqn:Etake.
    + apply take_length in Etake.
      destruct (algorithm.KarmarkarKarp _ items _ _).
      * cbn [dataset_ set_dataset].
        destruct (data.take _ d) as [[last_items d'] |] eqn:Etake'.
        -- apply take_length in Etake'.
           destruct (algorithm.KarmarkarKarp _ last_items _ _);
             (split; [reflexivity |]);
             (split; [intros H; contradiction | intros _]);
             intros items' k; cbn [snd partitioned flat_map app];
             (intros [E | [E | []]]; injection E as <- <-;
              [left | right]; split;
              [reflexivity | exact Etake | reflexivity | exact Etake']).
        -- split; [reflexivity |].
           split; [intros H; contradiction | intros _].
           intros items' k; cbn [snd partitioned flat_map app].
           intros [E | []]; injection E as <- <-.
           left. split; [reflexivity | exact Etake].
      * split; [reflexivity |].
        split; [intros H; contradiction | intros _].
        intros items' k; cbn [snd partitioned flat_map app].
        intros [E | []]; injection E as <- <-.
        left. split; [reflexivity | exact Etake].
    + split; [reflexivity |].
      split; [intros H; contradiction | intros _].
      intros items' k [].
Qed.

(** ** The branch test *)

(** C6.  Under the preconditions of §3 the test [micro_batch_size_ ==
    last_micro_batch_size_] of [Schedule()] holds exactly when [M] divides
    [per_rank], and the calls of [Schedule()] show the branch, in whatever
    state the dataset is.  When [M] divides [per_rank] the first call is
    [take(M * K)], every call to the partitioner is for [K] micro-batches of
    [K * M] items and nothing is concatenated: the tail branch is not taken;
    at the beginning of an epoch there is one such call and [Schedule()]
    returns.  When [M] does not divide [per_rank] the first call is
    [take(M * (K - P))], a different size, and the calls to the partitioner
    are those of the tail branch, for [K - P] micro-batches of [(K - P) * M]
    items and for [P] micro-batches of [P * L] items; at the beginning of an
    epoch both are made and the schedules concatenated when a rank holds more
    than [M] samples, and the first is the last call when it holds fewer. *)
Theorem uniform_branch_iff_divides (bits : N) (sizes : list Size)
    (P G M seed indeterminate : Z) :
  Preconditions sizes P G M ->
  Representable bits sizes P G M seed ->
  exists this,
    Scheduler_ctor bits (Some sizes) P G M seed indeterminate = Done this /\
    let K := num_micro_batches_ this in
    let L := last_micro_batch_size_ this in
    ((micro_batch_size_ this =? last_micro_batch_size_ this) = true
     <-> per_rank sizes P mod M = 0) /\
    M * (K - P) <> M * K /\
    forall accumulator_max prng that,
      Configured sizes P G M seed that ->
      let calls := snd (Schedule bits accumulator_max prng that) in
      (per_rank sizes P mod M = 0 ->
       hd_error calls = Some (CallTake (M * K)) /\
       ~ In CallConcat calls /\
       (forall items k,
          In (items, k) (partitioned calls) ->
          k = K /\ Z.of_nat (length items) = K * M) /\
       (EpochOpen sizes that ->
        exists rows that' items,
          Schedule bits accumulator_max prng that = (Done rows, that', calls) /\
          partitioned calls = [(items, K)] /\
          Z.of_nat (length items) = K * M)) /\
      (per_rank sizes P mod M <> 0 ->
       hd_error calls = Some (CallTake (M * (K - P))) /\
       (forall items k,
          In (items, k) (partitioned calls) ->
          k = K - P /\ Z.of_nat (length items) = (K - P) * M \/
          k = P /\ Z.of_nat (length items) = P * L) /\
       (EpochOpen sizes that ->
        (M < per_rank sizes P ->
         exists rows that' items last_items,
           Schedule bits accumulator_max prng that
           = (Done rows, that', calls) /\
           partitioned calls = [(items, K - P); (last_items, P)] /\
           taken calls = [M * (K - P); L * P] /\
           In CallConcat calls) /\
        (per_rank sizes P < M ->
         fst (fst (Schedule bits accumulator_max prng that)) = Aborted /\
         calls = [CallTake 0; CallKarmarkarKarp [] 0]))).
Proof.
  intros Hpre Hrep.
  destruct (Scheduler_ctor_Done bits sizes P G M seed indeterminate Hpre Hrep)
    as (this & E & Hcfg & _).
  exists this. split; [exact E |].
  pose proof (uniform_iff_divides sizes P G M Hpre) as Hiff.
  pose proof (uniform_coverage sizes P G M Hpre) as Hu.
  pose proof (tail_coverage sizes P G M Hpre) as Ht.
  pose proof Hcfg as (EP & EG & EM & Eseed & EK & EL).
  assert (HP : 0 < P) by (destruct Hpre; lia).
  assert (HM : 0 < M) by (destruct Hpre as (_ & _ & ? & _); lia).
  cbv zeta. rewrite EM, EK, EL.
  split; [rewrite Z.eqb_eq; exact Hiff |].
  split; [nia |].
  intros accumulator_max prng that Hcfg'.
  pose proof (take_requests_total bits sizes P G M seed that Hpre Hrep Hcfg')
    as (Etake & Esub & _ & Hnn).
  pose proof (Schedule_branch_calls bits accumulator_max prng that)
    as (Hfirst & Huni & Htail).
  cbv zeta in Etake, Esub, Hfirst, Huni, Htail.
  rewrite Etake in Hfirst, Hnn.
  pose proof Hcfg' as (EP' & EG' & EM' & Eseed' & EK' & EL').
  rewrite EM', EL', EK' in Huni. rewrite EM', EL', EK', EP' in Htail.
  split.
  - intros Hdiv.
    pose proof (proj2 Hiff Hdiv) as Eu.
    destruct (Hu Hdiv) as [Hcov HK].
    replace (M =? spec_last_micro_batch_size sizes P M) with true in *
      by (symmetry; apply Z.eqb_eq; exact Eu).
    apply Forall_cons_iff in Hnn as [Hnn _].
    destruct (Huni Eu) as [Hnc Hpart].
    assert (W : umul bits M (spec_num_micro_batches sizes P M)
                = M * spec_num_micro_batches sizes P M).
    { unfold take_requests in Etake. rewrite EM', EL', EK' in Etake.
      replace (M =? spec_last_micro_batch_size sizes P M) with true in Etake
        by (symmetry; apply Z.eqb_eq; exact Eu).
      injection Etake as Etake. exact Etake. }
    split; [exact Hfirst |].
    split; [exact Hnc |].
    split.
    + intros items k Hin. destruct (Hpart items k Hin) as [-> Hlen].
      split; [reflexivity |]. rewrite W in Hlen. lia.
    + intros Hopen.
      destruct (Schedule_cases bits accumulator_max prng sizes P G M seed that
                  Hpre Hrep Hcfg' Hopen (or_introl Eu))
        as [(_ & items & mbs & that' & Erun & _ & _ & Hlen & _)
           | (Et & _)]; [| tauto].
      rewrite Erun. cbn [snd].
      eexists _, _, items. split; [reflexivity |].
      split; [reflexivity | lia].
  - intros Hdiv.
    assert (Et : M <> spec_last_micro_batch_size sizes P M) by tauto.
    destruct (Ht Hdiv) as (Hcov & HKP & HKP0 & HL & Hne).
    cbv zeta in Hcov, HKP, HKP0, HL, Hne.
    replace (M =? spec_last_micro_batch_size sizes P M) with false in *
      by (symmetry; apply Z.eqb_neq; exact Et).
    specialize (Esub Et).
    apply Forall_cons_iff in Hnn as [Hnn Hnn'].
    apply Forall_cons_iff in Hnn' as [Hnn' _].
    assert (W : umul bits M (usub bits (spec_num_micro_batches sizes P M) P)
                = M * (spec_num_micro_batches sizes P M - P) /\
                umul bits (spec_last_micro_batch_size sizes P M) P
                = spec_last_micro_batch_size sizes P M * P).
    { unfold take_requests in Etake. rewrite EM', EL', EK', EP' in Etake.
      replace (M =? spec_last_micro_batch_size sizes P M) with false in Etake
        by (symmetry; apply Z.eqb_neq; exact Et).
      injection Etake as Etake Etake'. split; assumption. }
    destruct W as [W W'].
    split; [exact Hfirst |].
    split.
    + intros items k Hin.
      destruct (Htail Et items k Hin) as [[-> Hlen] | [-> Hlen]].
      * left. split; [exact Esub |]. rewrite W in Hlen. lia.
      * right. split; [reflexivity |]. rewrite W' in Hlen. lia.
    + intros Hopen. split.
      * intros Hlt.
        destruct (Schedule_cases bits accumulator_max prng sizes P G M seed
                    that Hpre Hrep Hcfg' Hopen (or_intror Hlt))
          as [(Eu & _)
             | (_ & items & last_items & mbs & last_mbs & that' & Erun & _)];
          [tauto |].
        cbv zeta in Erun. rewrite Erun. cbn [snd].
        eexists _, _, items, last_items. split; [reflexivity |].
        split; [reflexivity |].
        split; [reflexivity |].
        cbn. tauto.
      * intros Hlt.
        rewrite (Schedule_aborts_below_micro_batch bits accumulator_max prng
                   sizes P G M seed that Hpre Hrep Hcfg' Hlt).
        split; reflexivity.
Qed.

Lemma uniform_branch_iff_divides_witness :
  (exists this,
     Scheduler_ctor bits64 (Some [1; 1; 1; 1; 1; 1; 1; 1]) 2 4 2 0 7
       = Done this /\
     (micro_batch_size_ this =? last_micro_batch_size_ this) = true) /\
  (exists this,
     Scheduler_ctor bits64 (Some [1; 1; 1; 1; 1; 1; 1; 1; 1; 1]) 2 4 2 0 7
       = Done this /\
     (micro_batch_size_ this =? last_micro_batch_size_ this) <> true).
Proof.
  split.
  - destruct (uniform_branch_iff_divides bits64 [1; 1; 1; 1; 1; 1; 1; 1]
                2 4 2 0 7)
      as (this & E & Hiff & _).
    + unfold Preconditions. vm_compute. repeat split; discriminate.
    + unfold Representable, representable. vm_compute.
      repeat split; discriminate.
    + exists this. split; [exact E |]. apply Hiff. reflexivity.
  - destruct (uniform_branch_iff_divides bits64
                [1; 1; 1; 1; 1; 1; 1; 1; 1; 1] 2 4 2 0 7)
      as (this & E & Hiff & _).
    + unfold Preconditions. vm_compute. repeat split; discriminate.
    + unfold Representable, representable. vm_compute.
      repeat split; discriminate.
    + exists this. split; [exact E |]. intros H. apply Hiff in H.
      vm_compute in H. discriminate.
Defined.

(** ** A rank with fewer than [M] samples *)

(** C1, at [sizes = [1, 1]], [P = 2], [G = 4], [M = 2]: the preconditions of
    §3 hold and the dataset is at the beginning of an epoch, yet [Schedule()]
    aborts and returns no schedule. *)
Theorem no_schedule_for_two_samples :
  Preconditions [1; 1] 2 4 2 /\
  Representable bits64 [1; 1] 2 4 2 0 /\
  exists this,
    started [1; 1] 2 4 2 0 0 = Some this /\
    EpochOpen [1; 1] this /\
    fst (fst (Schedule bits64 int64_max counting_prng this)) = Aborted.
Proof.
  split; [unfold Preconditions; vm_compute; repeat split; discriminate |].
  split; [unfold Representable, representable; vm_compute;
          repeat split; discriminate |].
  eexists. split; [vm_compute; reflexivity |].
  split; [unfold EpochOpen; apply Permutation_refl | reflexivity].
Qed.

(** C8, at the same input: the head partitioner of the tail branch is called
    with no items and the target [num_micro_batches_ - data_parallel_size_
    = 0], which it rejects. *)
Theorem partitioner_called_with_zero_target :
  Preconditions [1; 1] 2 4 2 /\
  exists this,
    started [1; 1] 2 4 2 0 0 = Some this /\
    (micro_batch_size_ this =? last_micro_batch_size_ this) = false /\
    usub bits64 (num_micro_batches_ this) (data_parallel_size_ this) = 0 /\
    partitioned (snd (Schedule bits64 int64_max counting_prng this))
      = [([], 0)] /\
    algorithm.KarmarkarKarp int64_max [] 0 (data.OverflowSafeCast int64_max)
      = Aborted.
Proof.
  split; [unfold Preconditions; vm_compute; repeat split; discriminate |].
  eexists. split; [vm_compute; reflexivity |].
  repeat split.
Qed.

(** C4, at the same input.  The coverage identity holds,
    [(K - P) * M + P * L = 0 * 2 + 2 * 1 = P * per_rank], and the tail branch
    is written to take [0] and then [2] items; [Schedule()] asks for the [0]
    items, aborts in the partitioner and never asks for the other two: the
    call has requested [0] items, not [N = 2]. *)
Theorem requests_cut_short_for_two_samples :
  Preconditions [1; 1] 2 4 2 /\
  exists this,
    started [1; 1] 2 4 2 0 0 = Some this /\
    EpochOpen [1; 1] this /\
    (num_micro_batches_ this - data_parallel_size_ this) * micro_batch_size_ this
    + data_parallel_size_ this * last_micro_batch_size_ this
    = data_parallel_size_ this * per_rank [1; 1] 2 /\
    take_requests bits64 this = [0; 2] /\
    fst (fst (Schedule bits64 int64_max counting_prng this)) = Aborted /\
    taken (snd (Schedule bits64 int64_max counting_prng this)) = [0] /\
    sum_Z (taken (snd (Schedule bits64 int64_max counting_prng this))) = 0 /\
    vector_size [1; 1] = 2.
Proof.
  split; [unfold Preconditions; vm_compute; repeat split; discriminate |].
  eexists. split; [vm_compute; reflexivity |].
  split; [unfold EpochOpen; apply Permutation_refl |].
  repeat split.
Qed.

(** ** Frame *)

Lemma set_dataset_same (this : Scheduler) :
  set_dataset this (dataset_ this) = this.
Proof. destruct this. reflexivity. Qed.

Lemma Schedule_frame (bits : N) (accumulator_max : Z) (prng : Z -> nat -> nat)
    (this : Scheduler) :
  exists d,
    snd (fst (Schedule bits accumulator_max prng this)) = set_dataset this d.
Proof.
  unfold Schedule.
  destruct (micro_batch_size_ this =? last_micro_batch_size_ this);
    unfold mbind, dataset_take, call_KarmarkarKarp, call_shuffle, call_reshape,
      call_concat, call, mret.
  - destruct (data.take _ (dataset_ this)) as [[items d] |];
      [| exists (dataset_ this); symmetry; apply set_dataset_same].
    exists d.
    destruct (algorithm.KarmarkarKarp _ items _ _); reflexivity.
  - destruct (data.take _ (dataset_ this)) as [[items d] |];
      [| exists (dataset_ this); symmetry; apply set_dataset_same].
    destruct (algorithm.KarmarkarKarp _ items _ _);
      [| exists d; reflexivity].
    cbn [dataset_ set_dataset].
    destruct (data.take _ d) as [[last_items d'] |];
      [| exists d; reflexivity].
    exists d'.
    destruct (algorithm.KarmarkarKarp _ last_items _ _); reflexivity.
Qed.

Lemma mbind_mret_state {A B : Type} (m : Method A) (f : A -> B)
    (this : Scheduler) :
  snd (fst (mbind m (fun a => mret (f a)) this)) = snd (fst (m this)).
Proof.
  unfold mbind, mret. destruct (m this) as [[[a |] this'] calls]; reflexivity.
Qed.

(** What one operation leaves of the object: only the dataset changes, and
    [on_epoch_begin] sets the epoch. *)
Lemma after_frame (bits : N) (accumulator_max : Z) (prng : Z -> nat -> nat)
    (sampling_order : list Size -> Z -> Z -> list Item) (r : Request)
    (this : Scheduler) :
  exists d,
    after bits accumulator_max prng sampling_order r this
    = set_dataset
        (match r with
         | ReqEpochBegin epoch => set_epoch this epoch
         | _ => this
         end) d.
Proof.
  unfold after.
  destruct r; unfold perform; rewrite mbind_mret_state;
    try (eexists; reflexivity).
  apply Schedule_frame.
Qed.

(** C9.  No public operation changes [data_parallel_size_],
    [global_batch_size_], [micro_batch_size_], [seed_], [num_micro_batches_]
    or [last_micro_batch_size_]; [epoch_] changes only in [on_epoch_begin],
    which stores its argument; [Schedule()] leaves every member but the
    dataset as it was. *)
Theorem operations_keep_configuration (bits : N) (accumulator_max : Z)
    (prng : Z -> nat -> nat)
    (sampling_order : list Size -> Z -> Z -> list Item) (r : Request)
    (this : Scheduler) :
  let this' := after bits accumulator_max prng sampling_order r this in
  data_parallel_size_ this' = data_parallel_size_ this /\
  global_batch_size_ this' = global_batch_size_ this /\
  micro_batch_size_ this' = micro_batch_size_ this /\
  seed_ this' = seed_ this /\
  num_micro_batches_ this' = num_micro_batches_ this /\
  last_micro_batch_size_ this' = last_micro_batch_size_ this /\
  epoch_ this' = match r with
                 | ReqEpochBegin epoch => epoch
                 | _ => epoch_ this
                 end /\
  (is_schedule r = true -> this' = set_dataset this (dataset_ this')).
Proof.
  cbv zeta.
  destruct (after_frame bits accumulator_max prng sampling_order r this)
    as [d ->].
  destruct r; simpl; repeat split; try reflexivity; discriminate.
Qed.

Lemma operations_keep_configuration_witness :
  exists this,
    started [1; 1; 1; 1] 2 2 1 5 3 = Some this /\
    epoch_ (after bits64 int64_max counting_prng index_order ReqSchedule this)
      = 3 /\
    seed_ (after bits64 int64_max counting_prng index_order ReqSchedule this)
      = 5.
Proof.
  eexists. split; [vm_compute; reflexivity |].
  destruct (operations_keep_configuration bits64 int64_max counting_prng
              index_order ReqSchedule
              (after bits64 int64_max counting_prng index_order
                 (ReqEpochBegin 3)
                 (mkScheduler 2 0 2 1 1 4 5 (data.Dataset_new [1; 1; 1; 1] 5))))
    as (_ & _ & _ & Eseed & _ & _ & Eepoch & _).
  split; [exact Eepoch | exact Eseed].
Defined.

(** ** The shuffle seed *)

Lemma Schedule_shuffle_seeds (bits : N) (accumulator_max : Z)
    (prng : Z -> nat -> nat) (this : Scheduler) :
  Forall (fun seed => seed = uadd bits (epoch_ this) (seed_ this))
         (shuffle_seeds (snd (Schedule bits accumulator_max prng this))) /\
  (forall rows,
     fst (fst (Schedule bits accumulator_max prng this)) = Done rows ->
                shuffle_seeds (snd (Schedule bits accumulator_max prng this))
                <> []).
Proof.
  unfold Schedule.
  destruct (micro_batch_size_ this =? last_micro_batch_size_ this);
    unfold mbind, dataset_take, call_KarmarkarKarp, call_shuffle, call_reshape,
      call_concat, call, mret.
  - destruct (data.take _ (dataset_ this)) as [[items d] |];
      [| split; [constructor | discriminate]].
    destruct (algorithm.KarmarkarKarp _ items _ _);
      (split; [simpl; repeat constructor | simpl; discriminate]).
  - destruct (data.take _ (dataset_ this)) as [[items d] |];
      [| split; [constructor | discriminate]].
    destruct (algorithm.KarmarkarKarp _ items _ _);
      [| split; [constructor | discriminate]].
    cbn [dataset_ set_dataset].
    destruct (data.take _ d) as [[last_items d'] |];
      [| split; [constructor | discriminate]].
    destruct (algorithm.KarmarkarKarp _ last_items _ _);
      (split; [simpl; repeat constructor | simpl; discriminate]).
Qed.

Lemma after_all_keeps_epoch (bits : N) (accumulator_max : Z)
    (prng : Z -> nat -> nat)
    (sampling_order : list Size -> Z -> Z -> list Item)
    (requests : list Request) (this : Scheduler) :
  forallb (fun r => negb (is_epoch_begin r)) requests = true ->
  epoch_ (after_all bits accumulator_max prng sampling_order requests this)
  = epoch_ this /\
  seed_ (after_all bits accumulator_max prng sampling_order requests this)
  = seed_ this.
Proof.
  revert this. induction requests as [| r requests IH]; intros this H.
  - split; reflexivity.
  - simpl in H. apply andb_prop in H as [Hr H].
    change (after_all bits accumulator_max prng sampling_order
              (r :: requests) this)
      with (after_all bits accumulator_max prng sampling_order requests
              (after bits accumulator_max prng sampling_order r this)).
    destruct (IH (after bits accumulator_max prng sampling_order r this) H)
      as [-> ->].
    destruct (after_frame bits accumulator_max prng sampling_order r this)
      as [d ->].
    destruct r; try discriminate; split; reflexivity.
Qed.

(** C10.  The constructor leaves [epoch_] at whatever value the member holds,
    so the seed of a [Schedule()] on the constructed object, whatever its
    dataset holds, is that value plus [seed_]; once [on_epoch_begin(e)] is the
    most recent epoch-begin call,
    whatever other operations followed it, every shuffle of [Schedule()] is
    seeded with [e + seed_], and a [Schedule()] that returns has shuffled. *)
Theorem shuffle_seed_is_epoch_plus_seed (bits : N) (accumulator_max : Z)
    (prng : Z -> nat -> nat)
    (sampling_order : list Size -> Z -> Z -> list Item) :
  (forall sizes P G M seed indeterminate this,
     Scheduler_ctor bits sizes P G M seed indeterminate = Done this ->
     epoch_ this = indeterminate /\
     forall d,
       Forall (fun s => s = uadd bits indeterminate seed)
              (shuffle_seeds
                 (snd (Schedule bits accumulator_max prng
                         (set_dataset this d))))) /\
  (forall this e requests,
     forallb (fun r => negb (is_epoch_begin r)) requests = true ->
     let that :=
       after_all bits accumulator_max prng sampling_order requests
         (after bits accumulator_max prng sampling_order (ReqEpochBegin e) this)
     in
     epoch_ that = e /\
     Forall (fun s => s = uadd bits e (seed_ this))
            (shuffle_seeds (snd (Schedule bits accumulator_max prng that))) /\
     (forall rows,
        fst (fst (Schedule bits accumulator_max prng that)) = Done rows ->
        shuffle_seeds (snd (Schedule bits accumulator_max prng that)) <> [])).
Proof.
  split.
  - intros sizes P G M seed indeterminate this E.
    assert (Hf : epoch_ this = indeterminate /\ seed_ this = seed).
    { unfold Scheduler_ctor, obind, assert in E.
      repeat match type of E with
             | (if ?c then _ else _) = _ => destruct c; [| discriminate]
             | match (if ?c then _ else _) with _ => _ end = _ =>
                 destruct c; [| discriminate]
             end.
      destruct sizes as [v |]; [| discriminate].
      repeat match type of E with
             | match (if ?c then _ else _) with _ => _ end = _ =>
                 destruct c; [| discriminate]
             end.
      injection E as <-. split; reflexivity. }
    destruct Hf as [Ee Es]. split; [exact Ee |].
    intros d. rewrite <- Ee, <- Es.
    apply (Schedule_shuffle_seeds bits accumulator_max prng
             (set_dataset this d)).
  - intros this e requests Hreq. cbv zeta.
    destruct (after_all_keeps_epoch bits accumulator_max prng sampling_order
                requests
                (after bits accumulator_max prng sampling_order
                   (ReqEpochBegin e) this) Hreq) as [Ee Es].
    destruct (after_frame bits accumulator_max prng sampling_order
                (ReqEpochBegin e) this) as [d Ea].
    rewrite Ea in *. cbn [epoch_ seed_ set_dataset set_epoch] in Ee, Es.
    split; [exact Ee |].
    pose proof (Schedule_shuffle_seeds bits accumulator_max prng
                  (after_all bits accumulator_max prng sampling_order requests
                     (set_dataset (set_epoch this e) d))) as H.
    rewrite Ee, Es in H. exact H.
Qed.

Lemma shuffle_seed_is_epoch_plus_seed_witness :
  exists this,
    started [1; 1; 1; 1] 2 2 1 5 3 = Some this /\
    shuffle_seeds (snd (Schedule bits64 int64_max counting_prng this)) = [8].
Proof.
  eexists. split; [vm_compute; reflexivity |].
  destruct (shuffle_seed_is_epoch_plus_seed bits64 int64_max counting_prng
              index_order) as [_ H].
  destruct (H (mkScheduler 2 0 2 1 1 4 5 (data.Dataset_new [1; 1; 1; 1] 5))
              3 [] eq_refl) as (_ & Hseeds & _).
  vm_compute in Hseeds. vm_compute. reflexivity.
Defined.

(** ** Determinism *)











(** ** The shape of a schedule *)

(** The block of a rank in a global batch that holds a multiple of the
    number of ranks: its share. *)
Lemma rank_block_share (ranks rank m : nat) (group : list (list Index)) :
  (rank < ranks)%nat ->
  Nat.divide ranks (length group) ->
  Forall (fun mb => length mb = m) group ->
  (length (List.concat
             (algorithm.rank_block (algorithm.block_size ranks group) rank
                group)) * ranks
   = length group * m)%nat.
Proof.
  intros Hrank [c Hc] Hm.
  assert (Eb : algorithm.block_size ranks group = c).
  { unfold algorithm.block_size. rewrite Hc.
    replace (c * ranks + ranks - 1)%nat with (c * ranks + (ranks - 1))%nat
      by lia.
    rewrite Nat.div_add_l by lia. rewrite Nat.div_small by lia. lia. }
  rewrite Eb. unfold algorithm.rank_block.
  rewrite (length_concat_uniform m).
  - rewrite length_firstn, length_skipn, Hc.
    rewrite Nat.min_l by nia. nia.
  - apply (Forall_firstn_skipn _ c). apply (Forall_firstn_skipn _ (rank * c)).
    exact Hm.
Qed.

(** Equally long micro-batches whose number is a multiple of [P] give every
    rank a row of the same length, whatever the global batch size. *)
Lemma reshape_rows (micro_batches : list (list Index)) (P G : Z) (m c : nat) :
  0 < P ->
  Forall (fun mb => length mb = m) micro_batches ->
  length micro_batches = (c * Z.to_nat P)%nat ->
  Forall (fun row => length row = (c * m)%nat)
         (algorithm.reshape micro_batches P G).
Proof.
  intros HP Hm Hc. unfold algorithm.reshape.
  set (mu := Z.to_nat (G / P / Z.of_nat (length (hd [] micro_batches)))).
  set (ranks := Z.to_nat P) in *.
  assert (Hr : (0 < ranks)%nat) by (subst ranks; lia).
  pose proof (chunks_divide (fun mb => length mb = m) ranks (ranks * mu)
                (length micro_batches) micro_batches
                (Nat.divide_factor_l _ _)
                (ex_intro _ c Hc) Hm) as Hgroups.
  pose proof (chunks_concat (length micro_batches) (ranks * mu) micro_batches)
    as Hall.
  revert Hgroups Hall.
  generalize (algorithm.chunks (length micro_batches) (ranks * mu)
                micro_batches).
  intros batches Hgroups Hall.
  apply Forall_map, Forall_forall. intros rank Hrank.
  apply in_seq in Hrank.
  assert (E : (length
                 (List.concat
                    (map (fun group =>
                            List.concat
                              (algorithm.rank_block
                                 (algorithm.block_size ranks group) rank group))
                         batches)) * ranks
               = length (List.concat batches) * m)%nat).
  { clear Hall. induction Hgroups as [| group batches [Hd Hg] _ IH]; simpl.
    - reflexivity.
    - rewrite !length_app.
      pose proof (rank_block_share ranks rank m group ltac:(lia) Hd Hg) as Es.
      nia. }
  rewrite Hall, Hc in E. nia.
Qed.

Lemma concat_rows (head tail : list (list Index)) (a b : nat) :
  length head = length tail ->
  Forall (fun row => length row = a) head ->
  Forall (fun row => length row = b) tail ->
  Forall (fun row => length row = (a + b)%nat) (algorithm.concat head tail).
Proof.
  revert tail. induction head as [| h head IH]; intros [| t tail] Hlen Hh Ht;
    simpl in *; try discriminate; constructor.
  - rewrite length_app.
    apply Forall_cons_iff in Hh as [-> _].
    apply Forall_cons_iff in Ht as [-> _]. reflexivity.
  - apply IH; [lia | |].
    + apply Forall_cons_iff in Hh. tauto.
    + apply Forall_cons_iff in Ht. tauto.
Qed.

Lemma shuffle_keeps (prng : Z -> nat -> nat) (Q : list Index -> Prop)
    (micro_batches : list (list Index)) (seed : Z) :
  Forall Q micro_batches ->
  Forall Q (algorithm.shuffle prng micro_batches seed) /\
  length (algorithm.shuffle prng micro_batches seed) = length micro_batches.
Proof.
  intros H. split.
  - apply (Permutation_Forall
             (Permutation_sym (shuffle_Permutation prng micro_batches seed))).
    exact H.
  - apply Permutation_length, shuffle_Permutation.
Qed.

(** Where [Schedule()] returns at the beginning of an epoch (a rank holds a
    multiple of [M] samples, or more than [M]), the schedule has [P] rows of
    [per_rank] indices each. *)
Lemma Schedule_rows (bits : N) (accumulator_max : Z)
    (prng : Z -> nat -> nat) (sizes : list Size) (P G M seed : Z)
    (this : Scheduler) :
  Preconditions sizes P G M ->
  Representable bits sizes P G M seed ->
  Configured sizes P G M seed this ->
  EpochOpen sizes this ->
  M = spec_last_micro_batch_size sizes P M \/ M < per_rank sizes P ->
  exists rows this' calls,
    Schedule bits accumulator_max prng this = (Done rows, this', calls) /\
    length rows = Z.to_nat P /\
    Forall (fun row => Z.of_nat (length row) = per_rank sizes P) rows.
Proof.
  intros Hpre Hrep Hcfg Hopen Hhead.
  assert (HP : 0 < P) by (destruct Hpre; lia).
  assert (HM : 0 < M) by (destruct Hpre as (_ & _ & ? & _); lia).
  destruct (per_rank_bounds _ _ _ _ Hpre) as [Hq _].
  pose proof (uniform_iff_divides sizes P G M Hpre) as Hiff.
  assert (Hnat : forall (mbs : list (list Index)) (x : Z),
            0 <= x ->
            Forall (fun mb => Z.of_nat (length mb) = x) mbs ->
            Forall (fun mb => length mb = Z.to_nat x) mbs).
  { intros mbs x Hx. apply Forall_impl. intros mb Emb. lia. }
  destruct (Schedule_cases bits accumulator_max prng sizes P G M seed this
              Hpre Hrep Hcfg Hopen Hhead)
    as [(Eu & items & mbs & this' & Erun & _ & _ & _ & HK & Hl & _ & Hm)
       | (Et & items & last_items & mbs & last_mbs & this' & Erun & _ & _ & _
          & _ & HKP & Hl & Hl' & _ & Hm & Hm')].
  - eexists _, _, _. split; [exact Erun |].
    split; [apply reshape_length |].
    destruct (uniform_coverage sizes P G M Hpre (proj1 Hiff Eu)) as [Hcov _].
    destruct (shuffle_keeps prng _ mbs (shuffle_seed bits this)
                (Hnat mbs M ltac:(lia) Hm)) as [Hs Hsl].
    pose proof (reshape_rows _ P G (Z.to_nat M)
                  (Z.to_nat (ceil_div (per_rank sizes P) M)) HP Hs) as Hrows.
    unfold spec_num_micro_batches in *.
    pose proof (ceil_div_bounds (per_rank sizes P) M) as Hc.
    assert (Hc0 : 0 <= ceil_div (per_rank sizes P) M) by nia.
    eapply Forall_impl; [| apply Hrows; rewrite Hsl, Hl; nia].
    intros row Erow. cbv beta in Erow. nia.
  - cbv zeta in Erun, HKP, Hl, Hm'. eexists _, _, _. split; [exact Erun |].
    split; [rewrite concat_length; apply reshape_length |].
    assert (Hdiv : per_rank sizes P mod M <> 0) by tauto.
    destruct (tail_coverage sizes P G M Hpre Hdiv)
      as (Hcov & EKP & _ & HL & _).
    cbv zeta in Hcov, EKP, HL.
    pose proof (Z.div_pos (per_rank sizes P) M ltac:(lia) ltac:(lia)) as Dp.
    destruct (shuffle_keeps prng _ mbs (shuffle_seed bits this)
                (Hnat mbs M ltac:(lia) Hm)) as [Hs Hsl].
    destruct (shuffle_keeps prng _ last_mbs (shuffle_seed bits this)
                (Hnat last_mbs (spec_last_micro_batch_size sizes P M)
                   ltac:(lia) Hm')) as [Hs' Hsl'].
    pose proof (reshape_rows _ P G (Z.to_nat M)
                  (Z.to_nat (per_rank sizes P / M)) HP Hs) as Hrows.
    pose proof (reshape_rows _ P G
                  (Z.to_nat (spec_last_micro_batch_size sizes P M))
                  1%nat HP Hs') as Hrows'.
    eapply Forall_impl;
      [| apply concat_rows;
         [rewrite !reshape_length; reflexivity
         | apply Hrows; rewrite Hsl, Hl, EKP; nia
         | apply Hrows'; rewrite Hsl', Hl'; lia]].
    intros row Erow. cbv beta in Erow. nia.
Qed.

(** C2, at [sizes = [1, 1]], [P = 2], [G = 4], [M = 2]: the preconditions of
    §3 hold, [per_rank = 1] and the dataset is at the beginning of an epoch;
    the claim has [Schedule()] return two inner lists of one index each, and
    [Schedule()] aborts in the partitioner and returns no list. *)
Theorem no_rows_for_two_samples :
  Preconditions [1; 1] 2 4 2 /\
  per_rank [1; 1] 2 = 1 /\
  exists this,
    started [1; 1] 2 4 2 0 0 = Some this /\
    EpochOpen [1; 1] this /\
    data_parallel_size_ this = 2 /\
    forall rows,
      fst (fst (Schedule bits64 int64_max counting_prng this)) <> Done rows.
Proof.
  split; [unfold Preconditions; vm_compute; repeat split; discriminate |].
  split; [reflexivity |].
  eexists. split; [vm_compute; reflexivity |].
  split; [unfold EpochOpen; apply Permutation_refl |].
  split; [reflexivity |].
  intros rows H. vm_compute in H. discriminate.
Qed.

(** * Further properties of [scheduler.h] *)

(** ** What a constructed scheduler guarantees *)

(** A construction that returned went through every assertion. *)
Lemma Scheduler_ctor_Done_inv (bits : N) (sizes : option (list Size))
    (P G M seed indeterminate : Z) (this : Scheduler) :
  Scheduler_ctor bits sizes P G M seed indeterminate = Done this ->
  exists v,
    sizes = Some v /\ P <> 0 /\ G <> 0 /\ G mod P = 0 /\ M <> 0 /\
    G / P mod M = 0 /\ vector_size v <> 0 /\ vector_size v mod P = 0.
Proof.
  unfold Scheduler_ctor, obind, assert, umod, udiv. intros E.
  destruct (Z.eqb_spec P 0) as [HP | HP]; [discriminate |].
  destruct (Z.eqb_spec G 0) as [HG | HG]; [discriminate |].
  destruct (Z.eqb_spec (G mod P) 0) as [HGP | HGP]; [| discriminate].
  destruct (Z.eqb_spec M 0) as [HM | HM]; [discriminate |].
  destruct (Z.eqb_spec (G / P mod M) 0) as [HGM | HGM]; [| discriminate].
  destruct sizes as [v |]; [| discriminate].
  destruct (Z.eqb_spec (vector_size v) 0) as [HN | HN]; [discriminate |].
  destruct (Z.eqb_spec (vector_size v mod P) 0) as [HNP | HNP];
    [| discriminate].
  exists v. repeat split; assumption.
Qed.

Lemma constructed_Preconditions (bits : N) (sizes : list Size)
    (P G M seed indeterminate : Z) (this : Scheduler) :
  Representable bits sizes P G M seed ->
  Scheduler_ctor bits (Some sizes) P G M seed indeterminate = Done this ->
  Preconditions sizes P G M /\ Configured sizes P G M seed this.
Proof.
  intros Hrep E.
  destruct (Scheduler_ctor_Done_inv _ _ _ _ _ _ _ _ E)
    as (v & Ev & HP & HG & HGP & HM & HGM & HN & HNP).
  injection Ev as <-.
  assert (Hpre : Preconditions sizes P G M).
  { destruct Hrep as (RP & RG & RM & _ & RN).
    unfold Preconditions, representable in *. repeat split; lia. }
  split; [exact Hpre |].
  destruct (Scheduler_ctor_Done bits sizes P G M seed indeterminate Hpre Hrep)
    as (this' & E' & Hcfg & _).
  rewrite E in E'. injection E' as <-. exact Hcfg.
Qed.

(** The assertions make the global batch a whole number of micro-batches
    per rank, at least one, and give every rank the same number of samples,
    at least one. *)
Theorem constructed_batch_geometry (bits : N) (sizes : list Size)
    (P G M seed indeterminate : Z) (this : Scheduler) :
  Representable bits sizes P G M seed ->
  Scheduler_ctor bits (Some sizes) P G M seed indeterminate = Done this ->
  1 <= G / P / M /\
  global_batch_size_ this
  = data_parallel_size_ this * micro_batch_size_ this * (G / P / M) /\
  data_parallel_size_ this * micro_batch_size_ this
  <= global_batch_size_ this /\
  1 <= per_rank sizes P /\
  vector_size sizes = data_parallel_size_ this * per_rank sizes P /\
  data_parallel_size_ this <= vector_size sizes.
Proof.
  intros Hrep E.
  destruct (constructed_Preconditions _ _ _ _ _ _ _ _ Hrep E)
    as [Hpre (EP & EG & EM & _)].
  pose proof (micro_batches_per_step_pos sizes P G M Hpre) as Hmu.
  destruct (per_rank_bounds _ _ _ _ Hpre) as [Hq HqP].
  destruct Hpre as (HP & HG & HM & HGP & HGM & HN & HNP).
  rewrite EP, EG, EM.
  pose proof (Z.div_mod G P ltac:(lia)) as E1.
  pose proof (Z.div_mod (G / P) M ltac:(lia)) as E2.
  rewrite HGP in E1. rewrite HGM in E2.
  repeat split; nia.
Qed.

Lemma constructed_batch_geometry_witness :
  global_batch_size_ (mkScheduler 2 7 8 1 2 6 0
                        (data.Dataset_new [1; 1; 1; 1; 1; 1; 1; 1; 1; 1] 0))
  = 2 * 2 * 2.
Proof.
  destruct (constructed_batch_geometry bits64 [1; 1; 1; 1; 1; 1; 1; 1; 1; 1]
              2 8 2 0 7
              (mkScheduler 2 7 8 1 2 6 0
                 (data.Dataset_new [1; 1; 1; 1; 1; 1; 1; 1; 1; 1] 0)))
    as (_ & EG & _).
  - unfold Representable, representable. vm_compute.
    repeat split; discriminate.
  - reflexivity.
  - exact EG.
Defined.

(** No expression of the [Index] type wraps around: in the constructor the
    subtraction [N / P - 1] does not go below zero and the sum and product
    stay within [N]; in [Schedule()] the difference [K - P] does not go
    below zero and the products passed to [take] in the branch taken stay
    within [N]. *)
Theorem index_arithmetic_never_wraps (bits : N) (sizes : list Size)
    (P G M seed indeterminate : Z) (this : Scheduler) :
  Representable bits sizes P G M seed ->
  Scheduler_ctor bits (Some sizes) P G M seed indeterminate = Done this ->
  let n := vector_size sizes in
  let K := num_micro_batches_ this in
  let L := last_micro_batch_size_ this in
  usub bits (n / P) 1 = n / P - 1 /\ 0 <= n / P - 1 /\
  K = ((n / P - 1) / M + 1) * P /\ 0 < K <= n /\
  L = (n / P - 1) mod M + 1 /\ 0 < L <= M /\
  usub bits K P = K - P /\ 0 <= K - P /\
  (if M =? L
   then umul bits M K = M * K /\ M * K <= n
   else umul bits M (usub bits K P) = M * (K - P) /\ M * (K - P) <= n /\
        umul bits L P = L * P /\ L * P <= n).
Proof.
  intros Hrep E.
  destruct (constructed_Preconditions _ _ _ _ _ _ _ _ Hrep E)
    as [Hpre Hcfg].
  pose proof (take_requests_total bits sizes P G M seed this Hpre Hrep Hcfg)
    as (Etake & Esub & Esum & Hnn).
  destruct (per_rank_bounds _ _ _ _ Hpre) as [Hq HqP].
  pose proof (uniform_iff_divides sizes P G M Hpre) as Hiff.
  pose proof (uniform_coverage sizes P G M Hpre) as Hu.
  pose proof (tail_coverage sizes P G M Hpre) as Ht.
  destruct Hcfg as (EP & EG & EM & Eseed & EK & EL).
  pose proof Hrep as (RP & RG & RM & _ & RN).
  pose proof Hpre as (HP & HG & HM & _).
  unfold take_requests, sum_Z in *. rewrite EP, EM, EK, EL in *.
  unfold spec_num_micro_batches, spec_last_micro_batch_size in *.
  unfold per_rank in *. cbv zeta.
  set (q := vector_size sizes / P) in *.
  pose proof (ceil_div_bounds q M ltac:(lia) ltac:(lia)) as Hc.
  pose proof (branchless_ceil q M ltac:(lia) ltac:(lia)) as Ec.
  pose proof (Z.mod_pos_bound (q - 1) M ltac:(lia)) as Bm.
  unfold representable in *.
  assert (HK : 0 < ceil_div q M * P <= vector_size sizes) by nia.
  assert (Esub' : usub bits (ceil_div q M * P) P = ceil_div q M * P - P).
  { apply wrap_small. unfold representable. nia. }
  split; [apply wrap_small; unfold representable; lia |].
  split; [lia |].
  split; [rewrite Ec; reflexivity |].
  split; [exact HK |].
  split; [reflexivity |].
  split; [lia |].
  split; [exact Esub' |].
  split; [nia |].
  destruct (Z.eqb_spec M ((q - 1) mod M + 1)) as [Eu | Et].
  - injection Etake as Etake. destruct (Hu (proj1 Hiff Eu)) as [Hcov _].
    split; [exact Etake | nia].
  - rewrite Esub' in *. injection Etake as Etake Etake'.
    apply Forall_cons_iff in Hnn as [Hnn Hnn'].
    apply Forall_cons_iff in Hnn' as [Hnn' _].
    simpl in Esum.
    split; [exact Etake |]. split; [lia |].
    split; [exact Etake' | lia].
Qed.

Lemma index_arithmetic_never_wraps_witness :
  usub bits64 6 2 = 6 - 2 /\ umul bits64 2 (usub bits64 6 2) = 2 * (6 - 2).
Proof.
  destruct (index_arithmetic_never_wraps bits64
              [1; 1; 1; 1; 1; 1; 1; 1; 1; 1] 2 4 2 0 7
              (mkScheduler 2 7 4 1 2 6 0
                 (data.Dataset_new [1; 1; 1; 1; 1; 1; 1; 1; 1; 1] 0)))
    as (_ & _ & _ & _ & _ & _ & Esub & _ & Hbranch).
  - unfold Representable, representable. vm_compute.
    repeat split; discriminate.
  - reflexivity.
  - cbn [num_micro_batches_ last_micro_batch_size_] in *.
    change (2 =? 1) with false in Hbranch. cbv iota in Hbranch.
    split; [exact Esub | apply Hbranch].
Defined.

(** The constants of a constructed scheduler fit together:
    [num_micro_batches_] and [num_micro_batches_ - data_parallel_size_] are
    multiples of [data_parallel_size_], [K / P - 1] times [M] plus [L] is
    exactly [N / P], and [K = P] holds exactly when [N / P <= M], in which
    case [L = N / P]. *)
Theorem micro_batches_per_rank (bits : N) (sizes : list Size)
    (P G M seed indeterminate : Z) (this : Scheduler) :
  Representable bits sizes P G M seed ->
  Scheduler_ctor bits (Some sizes) P G M seed indeterminate = Done this ->
  let q := vector_size sizes / P in
  let K := num_micro_batches_ this in
  let L := last_micro_batch_size_ this in
  K mod P = 0 /\ (K - P) mod P = 0 /\ P <= K /\
  (K / P - 1) * M + L = q /\
  (K = P <-> q <= M) /\
  (q <= M -> L = q).
Proof.
  intros Hrep E.
  destruct (constructed_Preconditions _ _ _ _ _ _ _ _ Hrep E)
    as [Hpre (EP & EG & EM & Eseed & EK & EL)].
  destruct (per_rank_bounds _ _ _ _ Hpre) as [Hq HqP].
  destruct Hpre as (HP & HG & HM & _).
  cbv zeta. rewrite EK, EL.
  unfold spec_num_micro_batches, spec_last_micro_batch_size, per_rank in *.
  set (q := vector_size sizes / P) in *.
  rewrite <- (branchless_ceil q M) by lia.
  set (c := (q - 1) / M).
  pose proof (Z.div_mod (q - 1) M ltac:(lia)) as Edm. fold c in Edm.
  pose proof (Z.mod_pos_bound (q - 1) M ltac:(lia)) as Bm.
  assert (Hc : 0 <= c) by (apply Z.div_pos; lia).
  assert (Hc0 : c = 0 <-> q <= M).
  { split; intros H; [nia |]. apply Z.div_small. lia. }
  split; [apply Z.mod_mul; lia |].
  split; [replace ((c + 1) * P - P) with (c * P) by ring;
          apply Z.mod_mul; lia |].
  split; [nia |].
  split; [rewrite Z.div_mul by lia; nia |].
  split.
  { split; intros H.
    - apply Hc0. nia.
    - apply Hc0 in H. rewrite H. ring. }
  intros H. apply Hc0 in H. rewrite H in Edm. lia.
Qed.

Lemma micro_batches_per_rank_witness :
  (6 / 2 - 1) * 2 + 1 = vector_size [1; 1; 1; 1; 1; 1; 1; 1; 1; 1] / 2.
Proof.
  destruct (micro_batches_per_rank bits64
              [1; 1; 1; 1; 1; 1; 1; 1; 1; 1] 2 4 2 0 7
              (mkScheduler 2 7 4 1 2 6 0
                 (data.Dataset_new [1; 1; 1; 1; 1; 1; 1; 1; 1; 1] 0)))
    as (_ & _ & _ & Eq & _).
  - unfold Representable, representable. vm_compute.
    repeat split; discriminate.
  - reflexivity.
  - exact Eq.
Defined.

(** ** What [Schedule()] asks of the dataset *)

(** Whatever the dataset answers, [Schedule()] makes the first [take] of
    its branch, and the second one of the tail branch or not. *)
Lemma Schedule_taken_prefix (bits : N) (accumulator_max : Z)
    (prng : Z -> nat -> nat) (this : Scheduler) :
  taken (snd (Schedule bits accumulator_max prng this))
  = take_requests bits this \/
  taken (snd (Schedule bits accumulator_max prng this))
  = firstn 1 (take_requests bits this) /\
  fst (fst (Schedule bits accumulator_max prng this)) = Aborted.
Proof.
  unfold Schedule, take_requests.
  destruct (micro_batch_size_ this =? last_micro_batch_size_ this);
    unfold mbind, dataset_take, call_KarmarkarKarp, call_shuffle, call_reshape,
      call_concat, call, mret.
  - destruct (data.take _ (dataset_ this)) as [[items d] |];
      [| left; reflexivity].
    destruct (algorithm.KarmarkarKarp _ items _ _); left; reflexivity.
  - destruct (data.take _ (dataset_ this)) as [[items d] |];
      [| right; split; reflexivity].
    destruct (algorithm.KarmarkarKarp _ items _ _);
      [| right; split; reflexivity].
    cbn [dataset_ set_dataset].
    destruct (data.take _ d) as [[last_items d'] |]; [| left; reflexivity].
    destruct (algorithm.KarmarkarKarp _ last_items _ _); left; reflexivity.
Qed.

(** [Schedule()] never asks the dataset for more than its [N] items, in
    whatever state the dataset is and however the call ends; it always makes
    at least one [take], never asks for a negative number, and has asked for
    exactly [N] when it returns. *)
Theorem Schedule_never_over_requests (bits : N) (sizes : list Size)
    (P G M seed indeterminate : Z) (this : Scheduler) :
  Representable bits sizes P G M seed ->
  Scheduler_ctor bits (Some sizes) P G M seed indeterminate = Done this ->
  forall accumulator_max prng epoch d,
    let that := set_dataset (set_epoch this epoch) d in
    let calls := snd (Schedule bits accumulator_max prng that) in
    taken calls <> [] /\
    Forall (fun n => 0 <= n) (taken calls) /\
    sum_Z (taken calls) <= vector_size sizes /\
    (forall rows,
       fst (fst (Schedule bits accumulator_max prng that)) = Done rows ->
       sum_Z (taken calls) = vector_size sizes).
Proof.
  intros Hrep E accumulator_max prng epoch d that calls.
  destruct (constructed_Preconditions _ _ _ _ _ _ _ _ Hrep E)
    as [Hpre Hcfg].
  assert (Hcfg' : Configured sizes P G M seed that).
  { destruct Hcfg as (EP & EG & EM & Eseed & EK & EL).
    unfold Configured, that. cbn. repeat split; assumption. }
  pose proof (take_requests_total bits sizes P G M seed that Hpre Hrep Hcfg')
    as (Etake & _ & Esum & Hnn).
  assert (Hne : take_requests bits that <> [])
    by (rewrite Etake; destruct (M =? _); discriminate).
  destruct (Schedule_taken_prefix bits accumulator_max prng that)
    as [Efull | [Epart Eabort]]; fold calls in Efull || fold calls in Epart.
  - rewrite Efull. repeat split; try assumption; [lia |].
    intros rows _. exact Esum.
  - rewrite Epart.
    destruct (take_requests bits that) as [| n1 rest] eqn:Et;
      [contradiction |].
    apply Forall_cons_iff in Hnn as [Hn1 Hrest].
    assert (Hsum : 0 <= sum_Z rest).
    { clear - Hrest. induction Hrest; unfold sum_Z in *; simpl; lia. }
    cbn [firstn]. unfold sum_Z in *. simpl in *.
    repeat split.
    + discriminate.
    + repeat constructor. exact Hn1.
    + lia.
    + intros rows Hdone. rewrite Hdone in Eabort. discriminate.
Qed.

Lemma Schedule_never_over_requests_witness :
  sum_Z (taken (snd (Schedule bits64 int64_max counting_prng
                       (set_dataset
                          (set_epoch
                             (mkScheduler 2 7 4 1 2 6 0
                                (data.Dataset_new
                                   [1; 1; 1; 1; 1; 1; 1; 1; 1; 1] 0)) 3)
                          (data.mkDataset [1; 1; 1; 1; 1; 1; 1; 1; 1; 1] 0
                             [(0, 1); (1, 1); (2, 1)])))))
  <= 10.
Proof.
  destruct (Schedule_never_over_requests bits64
              [1; 1; 1; 1; 1; 1; 1; 1; 1; 1] 2 4 2 0 7
              (mkScheduler 2 7 4 1 2 6 0
                 (data.Dataset_new [1; 1; 1; 1; 1; 1; 1; 1; 1; 1] 0)))
    with (accumulator_max := int64_max) (prng := counting_prng) (epoch := 3)
         (d := data.mkDataset [1; 1; 1; 1; 1; 1; 1; 1; 1; 1] 0
                 [(0, 1); (1, 1); (2, 1)])
    as (_ & _ & Hle & _).
  - unfold Representable, representable. vm_compute.
    repeat split; discriminate.
  - reflexivity.
  - exact Hle.
Defined.

(** ** What [epoch_] does and does not influence *)

(** [Schedule()] reads [epoch_] for the shuffle seed only: on two objects
    that differ in [epoch_] alone it asks the dataset for the same items,
    makes the same partitioner calls, hands the same micro-batches to
    [shuffle], leaves the same dataset, and returns or aborts alike. *)
Theorem Schedule_reads_epoch_for_seed_only (bits : N) (accumulator_max : Z)
    (prng : Z -> nat -> nat) (this : Scheduler) (epoch : Z) :
  let r := Schedule bits accumulator_max prng this in
  let r' := Schedule bits accumulator_max prng (set_epoch this epoch) in
  taken (snd r') = taken (snd r) /\
  partitioned (snd r') = partitioned (snd r) /\
  shuffle_inputs (snd r') = shuffle_inputs (snd r) /\
  dataset_ (snd (fst r')) = dataset_ (snd (fst r)) /\
  (fst (fst r') = Aborted <-> fst (fst r) = Aborted).
Proof.
  cbv zeta. unfold Schedule.
  cbn [micro_batch_size_ last_micro_batch_size_ num_micro_batches_
       data_parallel_size_ global_batch_size_ seed_ epoch_ set_epoch].
  destruct (micro_batch_size_ this =? last_micro_batch_size_ this);
    unfold mbind, dataset_take, call_KarmarkarKarp, call_shuffle, call_reshape,
      call_concat, call, mret;
    cbn [dataset_ set_epoch].
  - destruct (data.take _ (dataset_ this)) as [[items d] |];
      [| repeat split; reflexivity].
    destruct (algorithm.KarmarkarKarp _ items _ _);
      repeat split; intros H; try discriminate; reflexivity.
  - destruct (data.take _ (dataset_ this)) as [[items d] |];
      [| repeat split; reflexivity].
    destruct (algorithm.KarmarkarKarp _ items _ _);
      [| repeat split; reflexivity].
    cbn [dataset_ set_dataset].
    destruct (data.take _ d) as [[last_items d'] |];
      [| repeat split; reflexivity].
    destruct (algorithm.KarmarkarKarp _ last_items _ _);
      repeat split; intros H; try discriminate; reflexivity.
Qed.

(** Within the range of the [Index] type no two epochs of a scheduler share
    a shuffle seed, wrap-around included; across schedulers the seed is
    shared as soon as [epoch + seed] agree, as for the next epoch of one
    base seed and this epoch of the next base seed. *)
Theorem shuffle_seed_injective_in_epoch (bits : N) (this : Scheduler)
    (e1 e2 : Z) :
  representable bits e1 ->
  representable bits e2 ->
  (shuffle_seed bits (set_epoch this e1) = shuffle_seed bits (set_epoch this e2)
   <-> e1 = e2) /\
  (forall accumulator_max prng sampling_order s1 s2,
     e1 <> e2 ->
     In s1 (shuffle_seeds
              (snd (Schedule bits accumulator_max prng
                      (after bits accumulator_max prng sampling_order
                         (ReqEpochBegin e1) this)))) ->
     In s2 (shuffle_seeds
              (snd (Schedule bits accumulator_max prng
                      (after bits accumulator_max prng sampling_order
                         (ReqEpochBegin e2) this)))) ->
     s1 <> s2) /\
  (forall other,
     seed_ other = seed_ this + 1 ->
     shuffle_seed bits (set_epoch other e1)
     = shuffle_seed bits (set_epoch this (e1 + 1))).
Proof.
  intros R1 R2.
  assert (Hinj : uadd bits e1 (seed_ this) = uadd bits e2 (seed_ this)
                 -> e1 = e2).
  { unfold uadd, wrap, representable in *. intros H.
    pose proof (modulus_pos bits) as Hm.
    assert (Hd : (e1 - e2) mod modulus bits = 0).
    { replace (e1 - e2) with ((e1 + seed_ this) - (e2 + seed_ this)) by ring.
      rewrite Zminus_mod, H, Z.sub_diag. apply Z.mod_0_l. lia. }
    apply Z.mod_divide in Hd; [| lia]. destruct Hd as [k Hk].
    assert (k = 0) by nia. lia. }
  split; [| split].
  - unfold shuffle_seed. cbn [epoch_ seed_ set_epoch].
    split; [exact Hinj | intros ->; reflexivity].
  - intros accumulator_max prng sampling_order s1 s2 Hne H1 H2 Heq.
    destruct (after_frame bits accumulator_max prng sampling_order
                (ReqEpochBegin e1) this) as [d1 E1].
    destruct (after_frame bits accumulator_max prng sampling_order
                (ReqEpochBegin e2) this) as [d2 E2].
    rewrite E1 in H1. rewrite E2 in H2.
    pose proof (proj1 (Schedule_shuffle_seeds bits accumulator_max prng
                         (set_dataset (set_epoch this e1) d1))) as F1.
    pose proof (proj1 (Schedule_shuffle_seeds bits accumulator_max prng
                         (set_dataset (set_epoch this e2) d2))) as F2.
    rewrite Forall_forall in F1, F2.
    specialize (F1 s1 H1). specialize (F2 s2 H2).
    cbn [epoch_ seed_ set_epoch set_dataset] in F1, F2.
    apply Hne, Hinj. congruence.
  - intros other Hseed. unfold shuffle_seed, uadd.
    cbn [epoch_ seed_ set_epoch]. rewrite Hseed. f_equal. ring.
Qed.

Lemma shuffle_seed_injective_in_epoch_witness :
  shuffle_seed bits64
    (set_epoch (mkScheduler 2 0 4 1 2 6 5 (data.Dataset_new [1; 1] 5)) 3)
  <> shuffle_seed bits64
       (set_epoch (mkScheduler 2 0 4 1 2 6 5 (data.Dataset_new [1; 1] 5))
          (2 ^ 64 - 1)).
Proof.
  destruct (shuffle_seed_injective_in_epoch bits64
              (mkScheduler 2 0 4 1 2 6 5 (data.Dataset_new [1; 1] 5))
              3 (2 ^ 64 - 1)) as [Hiff _].
  - unfold representable. vm_compute. split; [discriminate | reflexivity].
  - unfold representable. vm_compute. split; [discriminate | reflexivity].
  - intros H. apply Hiff in H. discriminate.
Defined.

(** ** A scheduler over its lifetime *)

(** After any sequence of public operations the configuration and the
    derived constants are those of construction, and [epoch_] is the
    argument of the last [on_epoch_begin] of the sequence, or what it was
    when the sequence has none. *)
Theorem lifetime_invariant (bits : N) (accumulator_max : Z)
    (prng : Z -> nat -> nat)
    (sampling_order : list Size -> Z -> Z -> list Item)
    (requests : list Request) (this : Scheduler) :
  let that :=
    after_all bits accumulator_max prng sampling_order requests this in
  data_parallel_size_ that = data_parallel_size_ this /\
  global_batch_size_ that = global_batch_size_ this /\
  micro_batch_size_ that = micro_batch_size_ this /\
  seed_ that = seed_ this /\
  num_micro_batches_ that = num_micro_batches_ this /\
  last_micro_batch_size_ that = last_micro_batch_size_ this /\
  epoch_ that = last_epoch_begin requests (epoch_ this) /\
  take_requests bits that = take_requests bits this.
Proof.
  cbv zeta. revert this.
  induction requests as [| r requests IH]; intros this.
  - repeat split; reflexivity.
  - change (after_all bits accumulator_max prng sampling_order
              (r :: requests) this)
      with (after_all bits accumulator_max prng sampling_order requests
              (after bits accumulator_max prng sampling_order r this)).
    change (last_epoch_begin (r :: requests) (epoch_ this))
      with (last_epoch_begin requests
              (match r with ReqEpochBegin e => e | _ => epoch_ this end)).
    destruct (IH (after bits accumulator_max prng sampling_order r this))
      as (EP & EG & EM & Es & EK & EL & Ee & Et).
    rewrite EP, EG, EM, Es, EK, EL, Ee, Et.
    destruct (after_frame bits accumulator_max prng sampling_order r this)
      as [d ->].
    destruct r; repeat split; reflexivity.
Qed.

(** ** Divisions and dereferences of the constructor *)

(** With assertions enabled the constructor never divides by zero and never
    dereferences a null [sizes]: each division, remainder and [sizes->size()]
    is reached only after the assertion that guards it.  It fails an
    assertion or returns exactly as [Scheduler_ctor] does. *)
Theorem debug_constructor_never_undefined (bits : N)
    (sizes : option (list Size)) (P G M seed indeterminate : Z) :
  Scheduler_ctor_checked bits false sizes P G M seed indeterminate
  <> Undefined /\
  (forall this,
     Scheduler_ctor_checked bits false sizes P G M seed indeterminate
     = Returned this
     <-> Scheduler_ctor bits sizes P G M seed indeterminate = Done this) /\
  (Scheduler_ctor_checked bits false sizes P G M seed indeterminate
   = AssertionFailed
   <-> Scheduler_ctor bits sizes P G M seed indeterminate = Aborted).
Proof.
  unfold Scheduler_ctor_checked, Scheduler_ctor, checked_assert, checked_mod,
    checked_div, checked_size, cbind, obind, assert, umod, udiv.
  destruct (Z.eqb_spec P 0) as [HP | HP]; cbn [negb];
    [repeat split; intros; try discriminate; reflexivity |].
  destruct (Z.eqb_spec G 0) as [HG | HG]; cbn [negb];
    [repeat split; intros; try discriminate; reflexivity |].
  destruct (G mod P =? 0);
    [| repeat split; intros; try discriminate; reflexivity].
  destruct (Z.eqb_spec M 0) as [HM | HM]; cbn [negb];
    [repeat split; intros; try discriminate; reflexivity |].
  destruct (G / P mod M =? 0);
    [| repeat split; intros; try discriminate; reflexivity].
  destruct sizes as [v |];
    [| repeat split; intros; try discriminate; reflexivity].
  destruct (vector_size v =? 0); cbn [negb];
    [repeat split; intros; try discriminate; reflexivity |].
  destruct (vector_size v mod P =? 0);
    [| repeat split; intros; try discriminate; reflexivity].
  repeat split; intros H; try discriminate;
    injection H as <-; reflexivity.
Qed.

(** With [NDEBUG] the assertions are gone: the constructor runs into
    undefined behaviour exactly when [sizes] is null, [data_parallel_size]
    is zero or [micro_batch_size] is zero, and returns an object for every
    other input, a zero or indivisible [global_batch_size] and an empty or
    indivisible [sizes] included; where the checking build returns, it
    returns the same object. *)
Theorem release_constructor_undefined_iff (bits : N)
    (sizes : option (list Size)) (P G M seed indeterminate : Z) :
  (Scheduler_ctor_checked bits true sizes P G M seed indeterminate = Undefined
   <-> sizes = None \/ P = 0 \/ M = 0) /\
  Scheduler_ctor_checked bits true sizes P G M seed indeterminate
  <> AssertionFailed /\
  (forall v,
     sizes = Some v -> P <> 0 -> M <> 0 ->
     exists this,
       Scheduler_ctor_checked bits true sizes P G M seed indeterminate
       = Returned this /\
       global_batch_size_ this = G /\
       num_micro_batches_ this
       = umul bits
           (uadd bits (usub bits (vector_size v / P) 1 / M) 1) P) /\
  (forall this,
     Scheduler_ctor bits sizes P G M seed indeterminate = Done this ->
     Scheduler_ctor_checked bits true sizes P G M seed indeterminate
     = Returned this).
Proof.
  assert (Hshape :
    (sizes = None \/ P = 0 \/ M = 0) /\
    Scheduler_ctor_checked bits true sizes P G M seed indeterminate = Undefined
    \/
    exists v, sizes = Some v /\ P <> 0 /\ M <> 0 /\
      Scheduler_ctor_checked bits true sizes P G M seed indeterminate
      = Returned
          {| data_parallel_size_ := P;
             epoch_ := indeterminate;
             global_batch_size_ := G;
             last_micro_batch_size_ :=
               uadd bits (umod (usub bits (udiv (vector_size v) P) 1) M) 1;
             micro_batch_size_ := M;
             num_micro_batches_ :=
               umul bits
                 (uadd bits (udiv (usub bits (udiv (vector_size v) P) 1) M) 1)
                 P;
             seed_ := seed;
             dataset_ := data.Dataset_new v seed |}).
  { unfold Scheduler_ctor_checked, checked_assert, checked_mod, checked_div,
      checked_size, cbind.
    destruct sizes as [v |]; [| left; split; [tauto | reflexivity]].
    destruct (Z.eqb_spec P 0) as [HP | HP];
      [left; split; [tauto | reflexivity] |].
    destruct (Z.eqb_spec M 0) as [HM | HM];
      [left; split; [tauto | reflexivity] |].
    right. exists v. repeat split; assumption. }
  split; [| split; [| split]].
  - destruct Hshape as [[Hbad E] | (v & Ev & HP & HM & E)].
    + tauto.
    + rewrite E. split; [discriminate |].
      intros [H | [H | H]]; [rewrite Ev in H; discriminate | tauto | tauto].
  - destruct Hshape as [[_ E] | (v & _ & _ & _ & E)]; rewrite E; discriminate.
  - intros v Ev HP HM.
    destruct Hshape as [[[H | [H | H]] _] | (v' & Ev' & _ & _ & E)];
      try (rewrite Ev in H; discriminate); try contradiction.
    rewrite Ev in Ev'. injection Ev' as <-.
    eexists. split; [exact E |]. split; reflexivity.
  - intros this Edone.
    destruct (Scheduler_ctor_Done_inv _ _ _ _ _ _ _ _ Edone)
      as (v & Ev & HP & HG & HGP & HM & HGM & HN & HNP).
    destruct Hshape as [[[H | [H | H]] _] | (v' & Ev' & _ & _ & E)];
      try (rewrite Ev in H; discriminate); try contradiction.
    rewrite Ev in Ev'. injection Ev' as <-.
    rewrite E. f_equal.
    subst sizes. unfold Scheduler_ctor, obind, assert, umod, udiv in Edone.
    destruct (P =? 0); [discriminate |].
    destruct (G =? 0); [discriminate |].
    destruct (G mod P =? 0); [| discriminate].
    destruct (M =? 0); [discriminate |].
    destruct (G / P mod M =? 0); [| discriminate].
    destruct (vector_size v =? 0); [discriminate |].
    destruct (vector_size v mod P =? 0); [| discriminate].
    cbn in Edone. injection Edone as <-. reflexivity.
Qed.

Lemma release_constructor_undefined_iff_witness :
  exists this,
    Scheduler_ctor_checked bits64 true (Some [1; 1; 1]) 2 0 5 0 7
    = Returned this /\
    global_batch_size_ this = 0.
Proof.
  destruct (release_constructor_undefined_iff bits64 (Some [1; 1; 1])
              2 0 5 0 7) as (_ & _ & H & _).
  destruct (H [1; 1; 1] eq_refl) as (this & E & EG & _);
    [discriminate | discriminate |].
  exists this. split; [exact E | exact EG].
Defined.

(** ** The branch-free forms and the value zero *)

(** In the arithmetic of the [Index] type the two branch-free forms of the
    constructor agree with the branching forms its comments give for every
    [x >= 1]; at [x = 0], which the assertions keep out, [x - 1] wraps around
    and [(x - 1) / y + 1] is [(2^bits - 1) / y + 1], not the [0] of
    [x % y == 0 ? x / y : x / y + 1], for every [y >= 2]. *)
Theorem branch_free_forms (bits : N) (x y : Z) :
  representable bits x ->
  representable bits y ->
  1 <= y ->
  (1 <= x ->
   uadd bits (udiv (usub bits x 1) y) 1
   = (if umod x y =? 0 then udiv x y else uadd bits (udiv x y) 1) /\
   uadd bits (umod (usub bits x 1) y) 1
   = (if umod x y =? 0 then y else umod x y)) /\
  (x = 0 -> 2 <= y ->
   uadd bits (udiv (usub bits x 1) y) 1 = (modulus bits - 1) / y + 1 /\
   uadd bits (udiv (usub bits x 1) y) 1
   <> (if umod x y =? 0 then udiv x y else uadd bits (udiv x y) 1)).
Proof.
  intros Rx Ry Hy. unfold representable in *.
  pose proof (modulus_pos bits) as Hm.
  split.
  - intros Hx.
    pose proof (branchless_ceil x y Hx Hy) as Ec.
    pose proof (branchless_last x y Hx Hy) as El.
    pose proof (Z.mod_pos_bound (x - 1) y ltac:(lia)) as Bm.
    pose proof (Z.mod_pos_bound x y ltac:(lia)) as Bx.
    pose proof (Z.div_mod x y ltac:(lia)) as Ex.
    assert (Hdiv : 0 <= x / y <= x).
    { split; [apply Z.div_pos; lia |]. nia. }
    unfold uadd, usub, udiv, umod.
    rewrite (wrap_small bits (x - 1)) by (unfold representable; lia).
    unfold ceil_div in Ec. split.
    + rewrite (wrap_small bits ((x - 1) / y + 1)).
      * rewrite Ec. destruct (x mod y =? 0) eqn:E0; [reflexivity |].
        symmetry. apply wrap_small. unfold representable.
        apply Z.eqb_neq in E0. nia.
      * unfold representable. rewrite Ec.
        destruct (Z.eqb_spec (x mod y) 0); nia.
    + rewrite (wrap_small bits ((x - 1) mod y + 1))
        by (unfold representable; lia).
      exact El.
  - intros -> Hy2.
    assert (Ewrap : usub bits 0 1 = modulus bits - 1).
    { unfold usub, wrap. symmetry.
      apply Z.mod_unique with (q := -1); lia. }
    assert (Hq : 0 <= (modulus bits - 1) / y <= (modulus bits - 1) / 2).
    { split; [apply Z.div_pos; lia |].
      apply Z.div_le_compat_l; lia. }
    assert (Hhalf : (modulus bits - 1) / 2 + 1 < modulus bits).
    { pose proof (Z.div_mod (modulus bits - 1) 2 ltac:(lia)).
      pose proof (Z.mod_pos_bound (modulus bits - 1) 2 ltac:(lia)). lia. }
    assert (Evalue : uadd bits (udiv (usub bits 0 1) y) 1
                     = (modulus bits - 1) / y + 1).
    { rewrite Ewrap. unfold uadd, udiv. apply wrap_small.
      unfold representable. lia. }
    split; [exact Evalue |].
    rewrite Evalue. unfold umod, udiv.
    rewrite Z.mod_0_l, Z.div_0_l by lia. simpl. lia.
Qed.

Lemma branch_free_forms_witness :
  uadd bits64 (udiv (usub bits64 5 1) 2) 1 = 3 /\
  uadd bits64 (udiv (usub bits64 0 1) 2) 1 = 2 ^ 63.
Proof.
  split.
  - destruct (branch_free_forms bits64 5 2) as [H _];
      try (unfold representable; vm_compute;
           split; [discriminate | reflexivity]);
      try (vm_compute; discriminate).
    destruct H as [E _]; [vm_compute; discriminate |].
    rewrite E. reflexivity.
  - destruct (branch_free_forms bits64 0 2) as [_ H];
      try (unfold representable; vm_compute;
           split; [discriminate | reflexivity]);
      try (vm_compute; discriminate).
    destruct (H eq_refl) as [E _]; [vm_compute; discriminate |].
    rewrite E. reflexivity.
Defined.
